(** * railbot: a shallow embedding of [server.js]

    The server keeps one [memory] object (known faces, conversation log,
    emotion history, smart-home state, last-seen values) and mutates it from
    socket handlers, the voice-command interpreter and nothing else.  This
    development embeds those handlers as functions over an explicit world
    (memory, wall clock, trace of outbound effects) and proves the properties
    the specification states about them.

    Conventions.
    - JavaScript strings are sequences of UTF-16 code units ([jsstring]);
      literals are written in UTF-8 and decoded by [js].
    - JavaScript numbers are IEEE 754 binary64 values, represented by the
      standard library's [spec_float] with precision 53 and exponent bound
      1024; all arithmetic is the correctly rounded arithmetic of
      [SpecFloat].
    - Every handler is a computation in the state monad [M] over [World]. *)

From Stdlib Require Import ZArith NArith PArith List Bool Lia String Ascii.
From Stdlib Require Import Floats.SpecFloat.
Import ListNotations.

Local Open Scope Z_scope.

(* ================================================================== *)
(** * JavaScript strings *)
(* ================================================================== *)

Module JsString.

(** A string value: its UTF-16 code units. *)
Definition jsstring := list N.

Definition eqb (a b : jsstring) : bool :=
  if list_eq_dec N.eq_dec a b then true else false.

Lemma eqb_eq (a b : jsstring) : eqb a b = true <-> a = b.
Proof.
  unfold eqb. destruct (list_eq_dec N.eq_dec a b); split; congruence.
Qed.

Lemma eqb_neq (a b : jsstring) : eqb a b = false <-> a <> b.
Proof.
  unfold eqb. destruct (list_eq_dec N.eq_dec a b); split; congruence.
Qed.

Lemma eqb_refl (a : jsstring) : eqb a a = true.
Proof. now apply eqb_eq. Qed.

(** Decoding of a UTF-8 byte sequence into code points. *)
Fixpoint utf8_decode (bs : list N) : list N :=
  let cont b := N.land b 63 in
  match bs with
  | [] => []
  | b0 :: r0 =>
    if (b0 <? 128)%N then b0 :: utf8_decode r0
    else match r0 with
    | [] => [b0]
    | b1 :: r1 =>
      if (b0 <? 224)%N then
        N.lor (N.shiftl (N.land b0 31) 6) (cont b1) :: utf8_decode r1
      else match r1 with
      | [] => [b0; b1]
      | b2 :: r2 =>
        if (b0 <? 240)%N then
          N.lor (N.shiftl (N.land b0 15) 12)
                (N.lor (N.shiftl (cont b1) 6) (cont b2)) :: utf8_decode r2
        else match r2 with
        | [] => [b0; b1; b2]
        | b3 :: r3 =>
          N.lor (N.shiftl (N.land b0 7) 18)
                (N.lor (N.shiftl (cont b1) 12)
                       (N.lor (N.shiftl (cont b2) 6) (cont b3)))
            :: utf8_decode r3
        end
      end
    end
  end.

(** A code point as UTF-16: itself, or a surrogate pair above the BMP. *)
Definition utf16_encode (cp : N) : list N :=
  if (cp <? 65536)%N then [cp]
  else let c := (cp - 65536)%N in
       [(55296 + N.shiftr c 10)%N; (56320 + N.land c 1023)%N].

Fixpoint bytes_of (s : string) : list N :=
  match s with
  | EmptyString => []
  | String a r => N_of_ascii a :: bytes_of r
  end.

(** The string value of a literal of the source. *)
Definition js (s : string) : jsstring :=
  flat_map utf16_encode (utf8_decode (bytes_of s)).

(** [prefix.startsWith]-style test: is [p] a prefix of [s]? *)
Fixpoint startsWith (p s : jsstring) : bool :=
  match p, s with
  | [], _ => true
  | _ :: _, [] => false
  | a :: p', b :: s' => (a =? b)%N && startsWith p' s'
  end.

(** [String.prototype.includes]: [needle] occurs in [s] as a substring. *)
Fixpoint includes (s needle : jsstring) : bool :=
  startsWith needle s ||
  match s with
  | [] => false
  | _ :: s' => includes s' needle
  end.

(** ECMAScript [LineTerminator]: LF, CR, LS, PS. *)
Definition isLineTerminator (c : N) : bool :=
  ((c =? 10) || (c =? 13) || (c =? 8232) || (c =? 8233))%N.

(** ECMAScript [WhiteSpace] (TAB, VT, FF, SP, NBSP, ZWNBSP and the space
    separators of Unicode) together with the line terminators: the code
    units [String.prototype.trim] strips. *)
Definition isTrimmed (c : N) : bool :=
  ((c =? 9) || (c =? 11) || (c =? 12) || (c =? 32) || (c =? 160) ||
   (c =? 5760) || ((8192 <=? c) && (c <=? 8202)) || (c =? 8239) ||
   (c =? 8287) || (c =? 12288) || (c =? 65279))%N
  || isLineTerminator c.

Fixpoint trimStart (s : jsstring) : jsstring :=
  match s with
  | [] => []
  | c :: s' => if isTrimmed c then trimStart s' else s
  end.

(** [String.prototype.trim]. *)
Definition trim (s : jsstring) : jsstring :=
  rev (trimStart (rev (trimStart s))).

(** Truthiness of a string value: every string but the empty one. *)
Definition truthy (s : jsstring) : bool :=
  match s with [] => false | _ :: _ => true end.

End JsString.
Import JsString.

(* ================================================================== *)
(** * JavaScript numbers *)
(* ================================================================== *)

Module Num.

(** A number value: a binary64 float. *)
Definition num := spec_float.

Definition prec : Z := 53.
Definition emax : Z := 1024.

Definition add : num -> num -> num := SFadd prec emax.
Definition sub : num -> num -> num := SFsub prec emax.
Definition mul : num -> num -> num := SFmul prec emax.
Definition div : num -> num -> num := SFdiv prec emax.
Definition sqrt : num -> num := SFsqrt prec emax.
Definition ltb : num -> num -> bool := SFltb.

Definition NaN : num := S754_nan.
Definition Infinity : num := S754_infinity false.
Definition zero : num := S754_zero false.

(** An integer literal of the source as a number. *)
Definition ofZ (z : Z) : num := binary_normalize prec emax z 0 false.

(** [Math.fround]: rounding to the nearest binary32 value (ties to even),
    the result again written as a binary64 value.  It is the conversion
    [Float32Array.from] applies to each element. *)
Definition fround (x : num) : num :=
  match x with
  | S754_finite s m e =>
    match binary_round 24 128 s m e with
    | S754_finite s' m' e' => binary_round prec emax s' m' e'
    | r => r
    end
  | _ => x
  end.

(** Neither infinite nor NaN. *)
Definition isFinite (x : num) : bool :=
  match x with
  | S754_zero _ | S754_finite _ _ _ => true
  | _ => false
  end.

Definition isZero (x : num) : bool :=
  match x with S754_zero _ => true | _ => false end.

Definition isNaN (x : num) : bool :=
  match x with S754_nan => true | _ => false end.

End Num.
Import Num.

(* ================================================================== *)
(** * Values that arrive untyped *)
(* ================================================================== *)

(** Fields of event payloads and of the query string are not validated by
    the server; the handlers only compare them with string literals. *)
Inductive JsValue :=
| JsUndefined
| JsNull
| JsBool (b : bool)
| JsNumber (n : num)
| JsString (s : jsstring)
| JsObject.   (* an array or object: never [===] to a primitive *)

(** [v === 'literal'] *)
Definition strictEqString (v : JsValue) (lit : jsstring) : bool :=
  match v with
  | JsString s => JsString.eqb s lit
  | _ => false
  end.

(* ================================================================== *)
(** * The memory object (lines 23-30) *)
(* ================================================================== *)

Definition Descriptor := list num.
Definition Frame := list Z.

Inductive Author := user | assistant | system.

Record FaceRecord := mkFace {
  name : jsstring;
  descriptor : Descriptor
}.

Record ConversationEntry := mkEntry {
  c_time : Z;
  from : Author;
  text : jsstring
}.

Record EmotionEntry := mkEmotion {
  e_time : Z;
  emotion : jsstring
}.

Record SmartHome := mkState { light : bool }.

Record Memory := mkMemory {
  faces : list FaceRecord;
  conversationLog : list ConversationEntry;
  emotionHistory : list EmotionEntry;
  state : SmartHome;
  lastEmotion : option jsstring;
  lastFaceDescriptor : option Descriptor;
  lastLidarFrame : option Frame
}.

(** The literal the module starts from when there is no [memory.json]. *)
Definition initialMemory : Memory :=
  {| faces := [];
     conversationLog := [];
     emotionHistory := [];
     state := {| light := false |};
     lastEmotion := None;
     lastFaceDescriptor := None;
     lastLidarFrame := None |}.

(* ================================================================== *)
(** * Worlds, effects and the handler monad *)
(* ================================================================== *)

Definition SocketId := nat.

(** What a handler does to the outside, in program order. *)
Inductive Effect :=
| ConsoleLog (line : jsstring)                   (* console.log(...) *)
| SocketEmitTts (to : SocketId) (msg : jsstring) (* socket.emit('tts', msg) *)
| SocketEmitTranscript (to : SocketId) (msg : jsstring)
| IoEmitLightState (on : bool)                   (* io.emit('light-state', on) *)
| BroadcastLidarUpdate (origin : SocketId) (frame : Frame)
| WriteMemoryFile (snapshot : Memory).           (* fs.writeFileSync(memoryPath, ...) *)

(** The world a handler runs in: the global [memory], the wall clock
    ([now i] is what the [i]-th call of [Date.now()] returns, [ticks] the
    number of calls so far) and the effects performed so far. *)
Record World := mkWorld {
  memory : Memory;
  now : nat -> Z;
  ticks : nat;
  trace : list Effect
}.

Definition M (A : Type) : Type := World -> A * World.

Definition ret {A} (a : A) : M A := fun w => (a, w).

Definition bind {A B} (m : M A) (k : A -> M B) : M B :=
  fun w => let (a, w') := m w in k a w'.

Declare Scope js_scope.
Delimit Scope js_scope with js.
Notation "x <- m ;; k" := (bind m (fun x => k))
  (at level 100, m at next level, right associativity) : js_scope.
Notation "m ;; k" := (bind m (fun _ => k))
  (at level 100, right associativity) : js_scope.
Local Open Scope js_scope.

(** Running a handler for its final world. *)
Definition exec {A} (m : M A) (w : World) : World := snd (m w).

Definition getMemory : M Memory := fun w => (memory w, w).

Definition modifyMemory (f : Memory -> Memory) : M unit :=
  fun w => (tt, {| memory := f (memory w); now := now w;
                   ticks := ticks w; trace := trace w |}).

Definition perform (e : Effect) : M unit :=
  fun w => (tt, {| memory := memory w; now := now w;
                   ticks := ticks w; trace := trace w ++ [e] |}).

(** [Date.now()] *)
Definition dateNow : M Z :=
  fun w => (now w (ticks w),
            {| memory := memory w; now := now w;
               ticks := S (ticks w); trace := trace w |}).

(** Field updates of [memory]. *)
Definition set_faces v (m : Memory) : Memory :=
  {| faces := v; conversationLog := conversationLog m;
     emotionHistory := emotionHistory m; state := state m;
     lastEmotion := lastEmotion m;
     lastFaceDescriptor := lastFaceDescriptor m;
     lastLidarFrame := lastLidarFrame m |}.

Definition set_conversationLog v (m : Memory) : Memory :=
  {| faces := faces m; conversationLog := v;
     emotionHistory := emotionHistory m; state := state m;
     lastEmotion := lastEmotion m;
     lastFaceDescriptor := lastFaceDescriptor m;
     lastLidarFrame := lastLidarFrame m |}.

Definition set_emotionHistory v (m : Memory) : Memory :=
  {| faces := faces m; conversationLog := conversationLog m;
     emotionHistory := v; state := state m;
     lastEmotion := lastEmotion m;
     lastFaceDescriptor := lastFaceDescriptor m;
     lastLidarFrame := lastLidarFrame m |}.

Definition set_light v (m : Memory) : Memory :=
  {| faces := faces m; conversationLog := conversationLog m;
     emotionHistory := emotionHistory m; state := {| light := v |};
     lastEmotion := lastEmotion m;
     lastFaceDescriptor := lastFaceDescriptor m;
     lastLidarFrame := lastLidarFrame m |}.

Definition set_lastEmotion v (m : Memory) : Memory :=
  {| faces := faces m; conversationLog := conversationLog m;
     emotionHistory := emotionHistory m; state := state m;
     lastEmotion := v;
     lastFaceDescriptor := lastFaceDescriptor m;
     lastLidarFrame := lastLidarFrame m |}.

Definition set_lastFaceDescriptor v (m : Memory) : Memory :=
  {| faces := faces m; conversationLog := conversationLog m;
     emotionHistory := emotionHistory m; state := state m;
     lastEmotion := lastEmotion m;
     lastFaceDescriptor := v;
     lastLidarFrame := lastLidarFrame m |}.

Definition set_lastLidarFrame v (m : Memory) : Memory :=
  {| faces := faces m; conversationLog := conversationLog m;
     emotionHistory := emotionHistory m; state := state m;
     lastEmotion := lastEmotion m;
     lastFaceDescriptor := lastFaceDescriptor m;
     lastLidarFrame := v |}.

(** [memory.conversationLog.push({ time: Date.now(), from, text })] *)
Definition pushConversation (a : Author) (t : jsstring) : M unit :=
  time <- dateNow ;;
  modifyMemory (fun m =>
    set_conversationLog (conversationLog m ++ [mkEntry time a t]) m).

(** [saveMemory] (lines 42-48): the whole object is written over the file. *)
Definition saveMemory : M unit :=
  m <- getMemory ;;
  perform (WriteMemoryFile m).

(** [speakText] (lines 221-230): the text is printed, sent to the
    originating socket and appended to the log as an assistant entry; the
    call to the speech synthesiser is commented out in the source. *)
Definition speakText (t : jsstring) (socket : SocketId) : M unit :=
  perform (ConsoleLog (js "💬 Assistant says: " ++ t)) ;;
  perform (SocketEmitTts socket t) ;;
  pushConversation assistant t.

(* ================================================================== *)
(** * Face recognition (lines 127-145) *)
(* ================================================================== *)

(** The literal [0.6]: the binary64 value nearest to 6/10. *)
Definition threshold : num := Eval vm_compute in div (ofZ 6) (ofZ 10).

(** [Float32Array.from(d)] *)
Definition Float32Array_from (d : Descriptor) : list num := map fround d.

(** Reading index [i] of a typed array inside an arithmetic expression: out
    of range the read gives [undefined], which the subtraction turns into
    NaN. *)
Definition at_index (a : list num) (i : nat) : num := nth i a NaN.

(** The inner loop: [for (i = 0; i < knownDesc.length; i++)]. *)
Definition sumSquares (knownDesc desc : list num) : num :=
  fold_left
    (fun sumSq i =>
       let diff := sub (at_index knownDesc i) (at_index desc i) in
       add sumSq (mul diff diff))
    (seq 0 (List.length knownDesc)) zero.

(** [Math.sqrt(sumSq)] for one known person. *)
Definition distance (desc : list num) (person : FaceRecord) : num :=
  sqrt (sumSquares (Float32Array_from (descriptor person)) desc).

(** The two loop variables [bestDistance] and [recognizedName]. *)
Record Best := mkBest {
  bestDistance : num;
  recognizedName : option jsstring
}.

(** One iteration of [for (const person of memory.faces)]. *)
Definition consider (desc : list num) (b : Best) (person : FaceRecord) : Best :=
  let d := distance desc person in
  if ltb d threshold && ltb d (bestDistance b)
  then {| bestDistance := d; recognizedName := Some (name person) |}
  else b.

Definition scan (desc : list num) (known : list FaceRecord) : Best :=
  fold_left (consider desc) known
            {| bestDistance := Infinity; recognizedName := None |}.

(** The value of [recognizedName] after the recognition block. *)
Definition recognize (descriptor : option Descriptor)
           (known : list FaceRecord) : option jsstring :=
  match descriptor with
  | Some d =>
    if (0 <? List.length known)%nat
    then recognizedName (scan (Float32Array_from d) known)
    else None
  | None => None
  end.

(* ================================================================== *)
(** * Socket handlers (lines 115-170) *)
(* ================================================================== *)

(** Truthiness of an optional string field ([undefined] and [''] are
    falsy). *)
Definition truthyOpt (o : option jsstring) : bool :=
  match o with Some s => truthy s | None => false end.

(** [emotion !== memory.lastEmotion] for a string [emotion]. *)
Definition differsFrom (e : jsstring) (lastE : option jsstring) : bool :=
  match lastE with
  | Some l => negb (JsString.eqb e l)
  | None => true
  end.

(** The emotion block of the face-data handler (lines 117-122). *)
Definition observeEmotion (emotion : option jsstring) : M unit :=
  match emotion with
  | Some e =>
    if truthy e then
      m <- getMemory ;;
      if differsFrom e (lastEmotion m) then
        modifyMemory (set_lastEmotion (Some e)) ;;
        time <- dateNow ;;
        modifyMemory (fun m =>
          set_emotionHistory (emotionHistory m ++ [mkEmotion time e]) m)
      else ret tt
    else ret tt
  | None => ret tt
  end.

(** The greeting of lines 149-151. *)
Definition greeting (recognized : option jsstring) : jsstring :=
  match recognized with
  | Some n =>
    if truthy n
    then js "Привет, " ++ n ++ js "! Рад видеть твою улыбку."
    else js "Привет! Рад видеть твою улыбку."
  | None => js "Привет! Рад видеть твою улыбку."
  end.

(** [socket.on('face-data', ...)] *)
Definition onFaceData (socket : SocketId) (descriptor : option Descriptor)
           (emotion : option jsstring) : M unit :=
  observeEmotion emotion ;;
  match descriptor with
   | Some d => modifyMemory (set_lastFaceDescriptor (Some d))
   | None => ret tt
   end ;;
  m <- getMemory ;;
  let recognized := recognize descriptor (faces m) in
  match emotion with
  | Some e =>
    if JsString.eqb e (js "happy")
    then speakText (greeting recognized) socket
    else ret tt
  | None => ret tt
  end.

Definition showBool (b : bool) : jsstring :=
  if b then js "true" else js "false".

(** [socket.on('smart-home', ({ device, action }) => ...)] *)
Definition onSmartHome (device action : JsValue) : M unit :=
  if strictEqString device (js "light") then
    modifyMemory (set_light (strictEqString action (js "on"))) ;;
    m <- getMemory ;;
    perform (ConsoleLog (js "💡 Light state changed via UI: "
                         ++ showBool (light (state m)))) ;;
    perform (IoEmitLightState (light (state m))) ;;
    saveMemory
  else ret tt.

(** [socket.on('lidar-data', ...)] *)
Definition onLidarData (socket : SocketId) (frame : Frame) : M unit :=
  modifyMemory (set_lastLidarFrame (Some frame)) ;;
  perform (BroadcastLidarUpdate socket frame).

(* ================================================================== *)
(** * Host functions *)
(* ================================================================== *)

(** Two functions of the JavaScript host depend on tables that are not part
    of the program (Unicode case mapping, the locale's time format).  The
    handlers are written over any host; [basicHost] below fixes one for
    evaluation. *)
Class Host := {
  toLowerCase : jsstring -> jsstring;      (* String.prototype.toLowerCase *)
  toLocaleTimeString : Z -> jsstring       (* new Date(t).toLocaleTimeString() *)
}.

(** Lower-casing of one code unit for the Basic Latin, Latin-1, Greek and
    Cyrillic capital letters; every other code unit is kept. *)
Definition lowerUnit (c : N) : N :=
  if ((65 <=? c) && (c <=? 90))%N then (c + 32)%N
  else if ((192 <=? c) && (c <=? 222) && negb (c =? 215))%N then (c + 32)%N
  else if ((913 <=? c) && (c <=? 939) && negb (c =? 930))%N then (c + 32)%N
  else if ((1024 <=? c) && (c <=? 1039))%N then (c + 80)%N
  else if ((1040 <=? c) && (c <=? 1071))%N then (c + 32)%N
  else c.

Definition twoDigits (n : N) : jsstring :=
  [(48 + (n / 10) mod 10)%N; (48 + n mod 10)%N].

(** A 24-hour [HH:MM:SS] rendering in UTC of a time in milliseconds. *)
Definition clockTime (t : Z) : jsstring :=
  let s := Z.to_N ((t / 1000) mod 86400) in
  twoDigits (s / 3600)%N ++ js ":" ++ twoDigits ((s / 60) mod 60)%N
    ++ js ":" ++ twoDigits (s mod 60)%N.

Definition basicHost : Host :=
  {| toLowerCase := map lowerUnit; toLocaleTimeString := clockTime |}.

(* ================================================================== *)
(** * The voice command interpreter (lines 181-218) *)
(* ================================================================== *)

Definition stripPrefix (p s : jsstring) : option jsstring :=
  if startsWith p s then Some (skipn (List.length p) s) else None.

(** [(.+)$] matches exactly the whole of [s]: at least one code unit, none
    of them a line terminator (the expression has no flags). *)
Definition dotPlusToEnd (s : jsstring) : bool :=
  truthy s && forallb (fun c => negb (isLineTerminator c)) s.

(** An attempt of [/запомни лицо (как )?(.+)$/] at the start of [s]; the
    result is capture group 2.  The optional group is greedy: it is tried
    first and given up when the rest cannot match. *)
Definition matchHere (s : jsstring) : option jsstring :=
  match stripPrefix (js "запомни лицо ") s with
  | Some tail =>
    match stripPrefix (js "как ") tail with
    | Some rest =>
      if dotPlusToEnd rest then Some rest
      else if dotPlusToEnd tail then Some tail else None
    | None => if dotPlusToEnd tail then Some tail else None
    end
  | None => None
  end.

(** [text.match(...)]: the leftmost position where an attempt succeeds. *)
Fixpoint matchRemember (s : jsstring) : option jsstring :=
  match matchHere s with
  | Some g => Some g
  | None =>
    match s with
    | [] => None
    | _ :: s' => matchRemember s'
    end
  end.

Definition quote : jsstring := [34%N].

Section Interpreter.
Context {host : Host}.

(** The name the remember-face branch extracts (lines 196-200). *)
Definition extractName (text : jsstring) : option jsstring :=
  match matchRemember text with
  | Some g => Some (trim g)
  | None => None
  end.

Definition handleVoiceCommand (transcript : jsstring) (socket : SocketId)
  : M unit :=
  let text := toLowerCase transcript in
  (if includes text (js "включи свет") then
     modifyMemory (set_light true) ;;
     speakText (js "Хорошо, включаю свет.") socket ;;
     perform (ConsoleLog (js "💡 Command: Light ON")) ;;
     m <- getMemory ;;
     perform (IoEmitLightState (light (state m))) ;;
     pushConversation assistant (js "Свет включен.")
   else if includes text (js "выключи свет") then
     modifyMemory (set_light false) ;;
     speakText (js "Выключаю свет.") socket ;;
     perform (ConsoleLog (js "💡 Command: Light OFF")) ;;
     m <- getMemory ;;
     perform (IoEmitLightState (light (state m))) ;;
     pushConversation assistant (js "Свет выключен.")
   else if includes text (js "запомни лицо") then
     let name := extractName text in
     if negb (truthyOpt name) then
       speakText (js "Как назвать этого человека?") socket
     else
       let name := match name with Some n => n | None => [] end in
       m <- getMemory ;;
       match lastFaceDescriptor m with
       | Some d =>
         modifyMemory (fun m => set_faces (faces m ++ [mkFace name d]) m) ;;
         speakText (js "Запомнил лицо как " ++ name ++ js ".") socket ;;
         perform (ConsoleLog (js "👤 Face saved: " ++ name)) ;;
         pushConversation system
           (js "Face " ++ quote ++ name ++ quote ++ js " remembered") ;;
         saveMemory
       | None =>
         speakText (js "Не вижу лицо для запоминания.") socket
       end
   else
     perform (ConsoleLog (js "🤖 Forwarding to AI (not implemented): "
                          ++ transcript)) ;;
     speakText (js "Извините, я не понял команду.") socket ;;
     pushConversation assistant (js "Не понял команду.")) ;;
  saveMemory.

(** The [transcriptReceived] handler (lines 91-101), after [JSON.parse]. *)
Definition onTranscriptReceived (socket : SocketId) (is_final : bool)
           (transcript : jsstring) : M unit :=
  if is_final && truthy transcript then
    perform (ConsoleLog (js "👂 Heard: " ++ transcript)) ;;
    pushConversation user transcript ;;
    perform (SocketEmitTranscript socket transcript) ;;
    handleVoiceCommand transcript socket ;;
    saveMemory
  else ret tt.

(** The events that reach [memory]; the signalling relays and the
    microphone stream do not touch it. *)
Inductive Event :=
| FaceData (socket : SocketId) (descriptor : option Descriptor)
           (emotion : option jsstring)
| SmartHomeRequest (socket : SocketId) (device action : JsValue)
| LidarData (socket : SocketId) (frame : Frame)
| TranscriptReceived (socket : SocketId) (is_final : bool)
                     (transcript : jsstring).

Definition handle (ev : Event) : M unit :=
  match ev with
  | FaceData socket d e => onFaceData socket d e
  | SmartHomeRequest _ device action => onSmartHome device action
  | LidarData socket frame => onLidarData socket frame
  | TranscriptReceived socket fin t => onTranscriptReceived socket fin t
  end.

(** Handlers run to completion, one event after the other. *)
Definition run (evs : list Event) (w : World) : World :=
  fold_left (fun w ev => exec (handle ev) w) evs w.

(* ------------------------------------------------------------------ *)
(** ** The admin panel (lines 233-260) *)

Record Response := mkResponse { status : nat; body : jsstring }.

(** [process.env.ADMIN_TOKEN || 'secret123'] *)
Definition validToken (env : option jsstring) : jsstring :=
  match env with
  | Some t => if truthy t then t else js "secret123"
  | None => js "secret123"
  end.

Definition showAuthor (a : Author) : jsstring :=
  match a with
  | user => js "user"
  | assistant => js "assistant"
  | system => js "system"
  end.

Definition newline : jsstring := [10%N].

Definition renderAdmin (m : Memory) : jsstring :=
  let html := js "<h1>Admin Panel</h1>" in
  let html := html ++ js "<h2>Known Faces:</h2><ul>" in
  let html := fold_left (fun html person =>
                html ++ js "<li>" ++ name person ++ js "</li>")
              (faces m) html in
  let html := html ++ js "</ul>" in
  let html := html ++ js "<h2>Smart Home State:</h2>" in
  let html := html ++ js "<p>Light: "
                ++ (if light (state m) then js "ON" else js "OFF")
                ++ js "</p>" in
  let html := html ++ js "<h2>Emotion History:</h2><pre>" in
  let html := fold_left (fun html e =>
                html ++ js "[" ++ toLocaleTimeString (e_time e) ++ js "] "
                     ++ emotion e ++ newline)
              (emotionHistory m) html in
  let html := html ++ js "</pre>" in
  let html := html ++ js "<h2>Conversation Log:</h2><pre>" in
  let html := fold_left (fun html entry =>
                html ++ js "[" ++ toLocaleTimeString (c_time entry) ++ js "] "
                     ++ showAuthor (from entry) ++ js ": " ++ text entry
                     ++ newline)
              (conversationLog m) html in
  html ++ js "</pre>".

(** [app.get('/admin', ...)] with [token = req.query.token] and [env] the
    value of [process.env.ADMIN_TOKEN]. *)
Definition adminPanel (env : option jsstring) (token : JsValue)
           (m : Memory) : Response :=
  if negb (strictEqString token (validToken env))
  then {| status := 401; body := js "Unauthorized" |}
  else {| status := 200; body := renderAdmin m |}.

End Interpreter.

(* ================================================================== *)
(** * Facts about numbers *)
(* ================================================================== *)

Module NumFacts.

Lemma ltb_nan_l (x : num) : ltb NaN x = false.
Proof. reflexivity. Qed.

Lemma ltb_nan_r (x : num) : ltb x NaN = false.
Proof. destruct x; reflexivity. Qed.

Lemma ltb_not_nan (x y : num) : ltb x y = true -> isNaN x = false.
Proof. destruct x; simpl; trivial; discriminate. Qed.

Lemma ltb_irrefl (x : num) : ltb x x = false.
Proof.
  destruct x as [s|s| |s m e]; try (destruct s); try reflexivity;
    unfold ltb, SFltb, SFcompare;
    rewrite Z.compare_refl; fold (Pos.compare m m);
    rewrite Pos.compare_refl; reflexivity.
Qed.

(** The order of the finite values of one sign, as [SFcompare] reads it:
    exponents first, mantissas next. *)
Definition lexLt (e1 : Z) (m1 : positive) (e2 : Z) (m2 : positive) : Prop :=
  e1 < e2 \/ (e1 = e2 /\ (m1 < m2)%positive).

Lemma ltb_pos_lex m1 e1 m2 e2 :
  ltb (S754_finite false m1 e1) (S754_finite false m2 e2) = true
  <-> lexLt e1 m1 e2 m2.
Proof.
  unfold ltb, SFltb, SFcompare, lexLt.
  fold (Pos.compare m1 m2).
  destruct (Z.compare_spec e1 e2); destruct (Pos.compare_spec m1 m2);
    split; intros; try discriminate; try reflexivity; try lia.
Qed.

Lemma ltb_neg_lex m1 e1 m2 e2 :
  ltb (S754_finite true m1 e1) (S754_finite true m2 e2) = true
  <-> lexLt e2 m2 e1 m1.
Proof.
  unfold ltb, SFltb, SFcompare, lexLt.
  fold (Pos.compare m1 m2).
  destruct (Z.compare_spec e1 e2); destruct (Pos.compare_spec m1 m2);
    simpl; split; intros; try discriminate; try reflexivity; try lia.
Qed.

Lemma lexLt_trans e1 m1 e2 m2 e3 m3 :
  lexLt e1 m1 e2 m2 -> lexLt e2 m2 e3 m3 -> lexLt e1 m1 e3 m3.
Proof. unfold lexLt. lia. Qed.

Lemma lexLt_total e1 m1 e2 m2 :
  lexLt e1 m1 e2 m2 \/ (e1 = e2 /\ m1 = m2) \/ lexLt e2 m2 e1 m1.
Proof. unfold lexLt. lia. Qed.

Lemma lexLt_asym e1 m1 e2 m2 :
  lexLt e1 m1 e2 m2 -> lexLt e2 m2 e1 m1 -> False.
Proof. unfold lexLt. lia. Qed.

Ltac by_lex :=
  repeat match goal with
  | H : ltb (S754_finite false _ _) (S754_finite false _ _) = true |- _ =>
    apply ltb_pos_lex in H
  | H : ltb (S754_finite true _ _) (S754_finite true _ _) = true |- _ =>
    apply ltb_neg_lex in H
  | |- ltb (S754_finite false _ _) (S754_finite false _ _) = true =>
    apply ltb_pos_lex
  | |- ltb (S754_finite true _ _) (S754_finite true _ _) = true =>
    apply ltb_neg_lex
  end.

(** [<] is transitive on numbers. *)
Lemma ltb_trans (x y z : num) :
  ltb x y = true -> ltb y z = true -> ltb x z = true.
Proof.
  destruct x as [sx|sx| |sx mx ex], y as [sy|sy| |sy my ey],
           z as [sz|sz| |sz mz ez];
    try destruct sx; try destruct sy; try destruct sz;
    intros Hxy Hyz; try discriminate; try reflexivity;
    by_lex; eauto using lexLt_trans.
Qed.

(** When [z] is a number that is not below [y], whatever is below [y] is
    below [z]. *)
Lemma ltb_below_trans (x y z : num) :
  ltb x y = true -> ltb z y = false -> isNaN z = false ->
  ltb x z = true.
Proof.
  destruct x as [sx|sx| |sx mx ex], y as [sy|sy| |sy my ey],
           z as [sz|sz| |sz mz ez];
    try destruct sx; try destruct sy; try destruct sz;
    intros Hxy Hzy Hz; try discriminate; try reflexivity;
    by_lex.
  - destruct (lexLt_total ey my ez mz) as [H|[[-> ->]|H]].
    + apply (proj2 (ltb_neg_lex _ _ _ _)) in H. congruence.
    + assumption.
    + eauto using lexLt_trans.
  - destruct (lexLt_total ez mz ey my) as [H|[[-> ->]|H]].
    + apply (proj2 (ltb_pos_lex _ _ _ _)) in H. congruence.
    + assumption.
    + eauto using lexLt_trans.
Qed.

(** Rounding keeps the sign it is given. *)
Lemma binary_round_aux_sign s m e l :
  match binary_round_aux prec emax s m e l with
  | S754_zero s' | S754_infinity s' | S754_finite s' _ _ => s' = s
  | S754_nan => True
  end.
Proof.
  unfold binary_round_aux.
  destruct (shr_fexp prec emax m e l) as [mrs' e'].
  destruct (shr_fexp prec emax _ e' loc_Exact) as [mrs'' e''].
  destruct (shr_m mrs''); trivial.
  destruct (e'' <=? emax - prec); trivial.
Qed.

(** [Math.sqrt] never returns a negative number. *)
Lemma sqrt_not_negative (x : num) (s : bool) :
  ltb (sqrt x) (S754_zero s) = false.
Proof.
  destruct x as [sx|sx| |sx mx ex]; try destruct sx; try reflexivity.
  unfold sqrt, SFsqrt.
  destruct (SFsqrt_core_binary prec emax (Z.pos mx) ex) as [[mz ez] lz].
  pose proof (binary_round_aux_sign false mz ez lz) as H.
  destruct (binary_round_aux prec emax false mz ez lz);
    try reflexivity; subst; reflexivity.
Qed.

(** A number below some bound that is neither zero nor negative is
    positive. *)
Lemma positive_of_nonzero (d bound : num) :
  ltb d bound = true -> ltb d zero = false -> isZero d = false ->
  ltb zero d = true.
Proof.
  destruct d as [s|s| |s m e]; try destruct s; simpl; intros;
    try discriminate; try reflexivity.
Qed.

Lemma sub_diag (x : num) : isFinite x = true -> sub x x = zero.
Proof.
  destruct x as [s|s| |s m e]; try discriminate; intros _.
  - destruct s; reflexivity.
  - unfold sub, SFsub. rewrite Z.sub_diag. reflexivity.
Qed.

Lemma add_nan_r (x : num) : add x NaN = NaN.
Proof. destruct x; reflexivity. Qed.

Lemma sub_nan_r (x : num) : sub x NaN = NaN.
Proof. destruct x; reflexivity. Qed.

Lemma zero_below_threshold (s : bool) : ltb (S754_zero s) threshold = true.
Proof. reflexivity. Qed.

End NumFacts.

(* ================================================================== *)
(** * The face matcher *)
(* ================================================================== *)

Module Matcher.
Import NumFacts.

(** ** The inner loop, read structurally *)

(** The loop over indices visits the known descriptor from left to right
    and the query alongside it; past the end of the query it reads NaN. *)
Fixpoint sumFrom (known desc : list num) (sumSq : num) : num :=
  match known with
  | [] => sumSq
  | k :: known' =>
    let diff := sub k (hd NaN desc) in
    sumFrom known' (tl desc) (add sumSq (mul diff diff))
  end.

Lemma nth_hd_skipn {A} (l : list A) (i : nat) (d : A) :
  nth i l d = hd d (skipn i l).
Proof.
  revert l; induction i as [|i IH]; intros [|a l]; simpl; trivial.
Qed.

Lemma skipn_S_tl {A} (l : list A) (i : nat) :
  skipn (S i) l = tl (skipn i l).
Proof.
  revert l; induction i as [|i IH]; intros [|a l]; try reflexivity.
  change (skipn (S (S i)) (a :: l)) with (skipn (S i) l).
  rewrite IH. reflexivity.
Qed.

Lemma sumSquares_from (known desc : list num) (n i : nat) (acc : num) :
  List.length (skipn i known) = n ->
  fold_left
    (fun sumSq i =>
       let diff := sub (at_index known i) (at_index desc i) in
       add sumSq (mul diff diff))
    (seq i n) acc
  = sumFrom (skipn i known) (skipn i desc) acc.
Proof.
  revert i acc; induction n as [|n IH]; intros i acc Hlen.
  - destruct (skipn i known); [reflexivity | discriminate].
  - simpl seq. simpl fold_left. rewrite IH.
    + unfold at_index. rewrite !nth_hd_skipn, !skipn_S_tl.
      destruct (skipn i known) as [|k rest]; [discriminate | reflexivity].
    + rewrite skipn_S_tl. destruct (skipn i known); [discriminate|].
      simpl in *. congruence.
Qed.

Lemma sumSquares_struct (known desc : list num) :
  sumSquares known desc = sumFrom known desc zero.
Proof. unfold sumSquares. now rewrite sumSquares_from with (n := List.length known). Qed.

Lemma sumFrom_nan (known desc : list num) : sumFrom known desc NaN = NaN.
Proof.
  revert desc; induction known as [|k known IH]; intros desc; simpl; trivial.
Qed.

(** A known descriptor longer than the query runs off the query's end. *)
Lemma sumFrom_longer (known desc : list num) (acc : num) :
  (List.length desc < List.length known)%nat -> sumFrom known desc acc = NaN.
Proof.
  revert desc acc; induction known as [|k known IH]; intros desc acc Hlen.
  - simpl in Hlen. lia.
  - destruct desc as [|d desc]; simpl.
    + rewrite sub_nan_r. simpl. rewrite add_nan_r. apply sumFrom_nan.
    + apply IH. simpl in Hlen. lia.
Qed.

(** A known descriptor shorter than the query reads only a prefix of it. *)
Lemma sumFrom_shorter (known desc : list num) (acc : num) :
  sumFrom known desc acc = sumFrom known (firstn (List.length known) desc) acc.
Proof.
  revert desc acc; induction known as [|k known IH]; intros desc acc.
  - reflexivity.
  - destruct desc as [|d desc]; simpl; trivial.
Qed.

Lemma sumFrom_same (v : list num) :
  Forall (fun x => isFinite x = true) v -> sumFrom v v zero = zero.
Proof.
  induction 1 as [|x v Hx _ IH]; simpl; trivial.
  rewrite sub_diag by exact Hx. exact IH.
Qed.

(** ** Distances *)

Lemma distance_longer (desc : list num) (p : FaceRecord) :
  (List.length desc < List.length (descriptor p))%nat ->
  distance desc p = NaN.
Proof.
  intros H. unfold distance. rewrite sumSquares_struct, sumFrom_longer; trivial.
  unfold Float32Array_from. now rewrite length_map.
Qed.

Lemma distance_shorter (desc : list num) (p : FaceRecord) :
  distance desc p = distance (firstn (List.length (descriptor p)) desc) p.
Proof.
  unfold distance. rewrite !sumSquares_struct.
  rewrite sumFrom_shorter. unfold Float32Array_from.
  now rewrite length_map.
Qed.

Lemma distance_same (q : Descriptor) (p : FaceRecord) :
  descriptor p = q ->
  Forall (fun x => isFinite x = true) (Float32Array_from q) ->
  distance (Float32Array_from q) p = zero.
Proof.
  intros Hq H. unfold distance. rewrite Hq.
  rewrite sumSquares_struct, sumFrom_same; trivial.
Qed.

Lemma distance_not_negative (desc : list num) (p : FaceRecord) (s : bool) :
  ltb (distance desc p) (S754_zero s) = false.
Proof. apply sqrt_not_negative. Qed.

Lemma below_threshold_below_infinity (d : num) :
  ltb d threshold = true -> ltb d Infinity = true.
Proof. intros H. apply ltb_trans with threshold; trivial. Qed.

(** ** The scan *)

Lemma scan_snoc (desc : list num) (pre : list FaceRecord) (p : FaceRecord) :
  scan desc (pre ++ [p]) = consider desc (scan desc pre) p.
Proof. unfold scan. now rewrite fold_left_app. Qed.

Lemma fold_consider_app desc l1 l2 b :
  fold_left (consider desc) (l1 ++ l2) b
  = fold_left (consider desc) l2 (fold_left (consider desc) l1 b).
Proof. apply fold_left_app. Qed.

(** What the loop variables say about the records seen so far. *)
Definition Summary (desc : list num) (seen : list FaceRecord) (b : Best)
  : Prop :=
  match recognizedName b with
  | None =>
    bestDistance b = Infinity /\
    Forall (fun r => ltb (distance desc r) threshold = false) seen
  | Some n =>
    exists l1 p l2,
      seen = l1 ++ p :: l2 /\ n = name p /\
      bestDistance b = distance desc p /\
      ltb (distance desc p) threshold = true /\
      Forall (fun r => ltb (distance desc r) threshold = true ->
                       ltb (distance desc p) (distance desc r) = true) l1 /\
      Forall (fun r => ltb (distance desc r) (distance desc p) = false) l2
  end.

Lemma scan_summary (desc : list num) (seen : list FaceRecord) :
  Summary desc seen (scan desc seen).
Proof.
  induction seen as [|x seen IH] using rev_ind.
  - split; [reflexivity | constructor].
  - rewrite scan_snoc. unfold consider.
    set (d := distance desc x).
    destruct (ltb d threshold) eqn:Hthr; simpl.
    + destruct (ltb d (bestDistance (scan desc seen))) eqn:Hbest.
      * (* accepted *)
        exists seen, x, []. repeat split; trivial.
        unfold Summary in IH.
        destruct (recognizedName (scan desc seen)) as [n|].
        -- destruct IH as (l1 & p & l2 & -> & _ & Hb & Hp & H1 & H2).
           rewrite Hb in Hbest. fold d.
           apply Forall_app; split; [|constructor].
           ++ eapply Forall_impl; [|exact H1]. simpl; intros r Hr Hlt.
              eapply ltb_trans; [exact Hbest | auto].
           ++ intros _. exact Hbest.
           ++ eapply Forall_impl; [|exact H2]. simpl; intros r Hr Hlt.
              eapply ltb_below_trans; [exact Hbest | exact Hr |].
              eapply ltb_not_nan; exact Hlt.
        -- destruct IH as [_ H]. eapply Forall_impl; [|exact H].
           simpl; intros r Hr Hlt. congruence.
      * (* below the threshold, not below the best *)
        unfold Summary in *.
        destruct (recognizedName (scan desc seen)) as [n|].
        -- destruct IH as (l1 & p & l2 & -> & Hn & Hb & Hp & H1 & H2).
           exists l1, p, (l2 ++ [x]). rewrite <- app_assoc.
           repeat split; trivial.
           apply Forall_app; split; trivial.
           constructor; [|constructor]. fold d. congruence.
        -- destruct IH as [Hb _]. rewrite Hb in Hbest.
           apply below_threshold_below_infinity in Hthr. congruence.
    + (* not below the threshold *)
      unfold Summary in *.
      destruct (recognizedName (scan desc seen)) as [n|].
      * destruct IH as (l1 & p & l2 & -> & Hn & Hb & Hp & H1 & H2).
        exists l1, p, (l2 ++ [x]). rewrite <- app_assoc.
        repeat split; trivial.
        apply Forall_app; split; trivial.
        constructor; [|constructor]. fold d.
        destruct (ltb d (distance desc p)) eqn:E; trivial.
        assert (ltb d threshold = true) by (eapply ltb_trans; eauto).
        congruence.
      * destruct IH as [Hb H]. split; trivial.
        apply Forall_app; split; trivial. constructor; trivial.
Qed.

(** A best distance of zero is never replaced. *)
Lemma zero_stays (desc : list num) (rest : list FaceRecord) (b : Best) :
  isZero (bestDistance b) = true ->
  fold_left (consider desc) rest b = b.
Proof.
  revert b; induction rest as [|r rest IH]; intros b Hz; simpl; trivial.
  assert (consider desc b r = b) as ->; [|auto].
  unfold consider. destruct (bestDistance b) as [s| | |]; try discriminate.
  rewrite distance_not_negative, andb_false_r. reflexivity.
Qed.

(** A record whose distance is NaN leaves the loop variables alone. *)
Lemma consider_nan (desc : list num) (b : Best) (p : FaceRecord) :
  distance desc p = NaN -> consider desc b p = b.
Proof. unfold consider. intros ->. reflexivity. Qed.

End Matcher.

Module MatcherClaims.
Import NumFacts Matcher.

Lemma recognize_split (q : Descriptor) (l1 l2 : list FaceRecord)
      (p : FaceRecord) :
  recognize (Some q) (l1 ++ p :: l2)
  = recognizedName
      (fold_left (consider (Float32Array_from q)) l2
         (consider (Float32Array_from q)
                   (scan (Float32Array_from q) l1) p)).
Proof.
  unfold recognize. rewrite length_app. simpl List.length.
  replace (0 <? List.length l1 + S (List.length l2))%nat with true
    by (symmetry; apply Nat.ltb_lt; lia).
  unfold scan. rewrite fold_left_app. reflexivity.
Qed.

Lemma recognize_scan (q : Descriptor) (known : list FaceRecord) :
  recognize (Some q) known = recognizedName (scan (Float32Array_from q) known).
Proof.
  unfold recognize. destruct known; reflexivity.
Qed.

(** C1. The matcher accepts a candidate only when its distance is strictly
    below the threshold 0.6 and strictly below the best distance so far; it
    returns no name exactly when no record is below the threshold (so also
    for an empty list, and when there is no descriptor); the name it returns
    belongs to a record that is strictly closer than every earlier record
    below the threshold and that no later record beats strictly (ties keep
    the earlier record); and a record whose descriptor equals the query, with
    finite components after the conversion to binary32, has its name
    returned when no earlier record is at distance zero. *)
Theorem matcher_keeps_first_strict_minimum
        (q : Descriptor) (known : list FaceRecord) :
  let desc := Float32Array_from q in
  let d := distance desc in
  (forall pre p post, known = pre ++ p :: post ->
     scan desc (pre ++ [p])
     = if ltb (d p) threshold && ltb (d p) (bestDistance (scan desc pre))
       then {| bestDistance := d p; recognizedName := Some (name p) |}
       else scan desc pre) /\
  recognize None known = None /\
  recognize (Some q) [] = None /\
  (recognize (Some q) known = None <->
   Forall (fun r => ltb (d r) threshold = false) known) /\
  (forall n, recognize (Some q) known = Some n ->
     exists l1 p l2,
       known = l1 ++ p :: l2 /\ n = name p /\
       ltb (d p) threshold = true /\
       Forall (fun r => ltb (d r) threshold = true ->
                        ltb (d p) (d r) = true) l1 /\
       Forall (fun r => ltb (d r) (d p) = false) l2) /\
  (forall l1 p l2,
     known = l1 ++ p :: l2 -> descriptor p = q ->
     Forall (fun x => isFinite x = true) desc ->
     Forall (fun r => isZero (d r) = false) l1 ->
     recognize (Some q) known = Some (name p)).
Proof.
  intros desc d.
  pose proof (scan_summary desc known) as Hsum.
  repeat split.
  - intros pre p post _. apply scan_snoc.
  - intros H. rewrite recognize_scan in H. fold desc in H.
    unfold Summary in Hsum. rewrite H in Hsum. tauto.
  - intros Hall. rewrite recognize_scan. fold desc.
    unfold Summary in Hsum.
    destruct (recognizedName (scan desc known)) as [n|]; trivial.
    destruct Hsum as (l1 & p & l2 & -> & _ & _ & Hp & _).
    apply Forall_app in Hall. destruct Hall as [_ Hall].
    inversion Hall; subst. unfold d in *. congruence.
  - intros n H. rewrite recognize_scan in H. fold desc in H.
    unfold Summary in Hsum. rewrite H in Hsum.
    destruct Hsum as (l1 & p & l2 & ? & ? & ? & ? & ? & ?).
    exists l1, p, l2. auto.
  - intros l1 p l2 -> Hq Hfin Hnz.
    rewrite recognize_split. fold desc.
    assert (Hd : distance desc p = zero) by (apply distance_same; trivial).
    assert (Hb : ltb zero (bestDistance (scan desc l1)) = true).
    { pose proof (scan_summary desc l1) as S1. unfold Summary in S1.
      destruct (recognizedName (scan desc l1)) as [n|].
      - destruct S1 as (k1 & r & k2 & -> & _ & Hb & Hr & _).
        rewrite Hb. apply positive_of_nonzero with threshold; trivial.
        + apply distance_not_negative.
        + apply Forall_app in Hnz. destruct Hnz as [_ Hnz].
          inversion Hnz; subst. assumption.
      - destruct S1 as [-> _]. reflexivity. }
    unfold consider at 2. rewrite Hd, Hb. simpl.
    rewrite zero_stays; reflexivity.
Qed.

Definition anya : FaceRecord := mkFace (js "аня") [zero].
Definition anna : FaceRecord := mkFace (js "анна") [zero].

(** For the query [0] and the records аня, анна with the same descriptor
    [0], the first name is the one returned. *)
Lemma matcher_keeps_first_strict_minimum_witness :
  recognize (Some [zero]) [anya; anna] = Some (name anya).
Proof.
  apply (matcher_keeps_first_strict_minimum [zero] [anya; anna])
    with (l1 := []) (l2 := [anna]).
  - reflexivity.
  - reflexivity.
  - repeat constructor.
  - constructor.
Defined.

(** A record whose descriptor equals the query exactly is not always the one
    whose name is returned: of two records with the query's descriptor the
    later one is never named. *)
Lemma exact_match_may_name_an_earlier_record :
  In anna [anya; anna] /\
  descriptor anna = [zero] /\
  distance (Float32Array_from [zero]) anna = zero /\
  recognize (Some [zero]) [anya; anna] <> Some (name anna).
Proof.
  repeat split.
  - right; left; reflexivity.
  - vm_compute. discriminate.
Qed.

(** C3. No dimension check is made and no error is raised.  A record whose
    descriptor is longer than the query gets the distance NaN, is never
    accepted, and the scan goes on as if the record were absent; a record
    whose descriptor is not longer is compared on its own length only, the
    further components of the query being ignored. *)
Theorem mismatched_record_is_skipped_or_compared_on_prefix
        (q : Descriptor) (l1 l2 : list FaceRecord) (p : FaceRecord) :
  ((List.length q < List.length (descriptor p))%nat ->
   distance (Float32Array_from q) p = NaN /\
   recognize (Some q) (l1 ++ p :: l2) = recognize (Some q) (l1 ++ l2)) /\
  distance (Float32Array_from q) p
  = distance (Float32Array_from (firstn (List.length (descriptor p)) q)) p.
Proof.
  split.
  - intros Hlen.
    assert (Hnan : distance (Float32Array_from q) p = NaN).
    { apply distance_longer. unfold Float32Array_from.
      now rewrite length_map. }
    split; trivial.
    rewrite recognize_split, consider_nan by exact Hnan.
    rewrite recognize_scan. unfold scan. now rewrite fold_left_app.
  - rewrite distance_shorter. unfold Float32Array_from.
    now rewrite firstn_map.
Qed.

Definition longRecord : FaceRecord := mkFace (js "аня") [zero; zero].
Definition shortRecord : FaceRecord := mkFace (js "аня") [zero].

Lemma mismatched_record_is_skipped_or_compared_on_prefix_witness :
  distance (Float32Array_from [zero]) longRecord = NaN /\
  recognize (Some [zero]) ([] ++ longRecord :: [anna])
  = recognize (Some [zero]) ([] ++ [anna]).
Proof.
  apply (mismatched_record_is_skipped_or_compared_on_prefix
           [zero] [] [anna] longRecord).
  simpl. lia.
Defined.

(** A record shorter than the query is neither rejected with an error nor
    skipped: it is matched on the query's first component alone. *)
Lemma shorter_record_is_matched_on_a_prefix :
  List.length (descriptor shortRecord) <> List.length [zero; ofZ 5] /\
  recognize (Some [zero; ofZ 5]) [shortRecord] = Some (name shortRecord).
Proof.
  split.
  - simpl. discriminate.
  - vm_compute. reflexivity.
Qed.

End MatcherClaims.

(* ================================================================== *)
(** * The emotion tracker *)
(* ================================================================== *)

(** No two neighbours of the history carry the same label. *)
Definition noConsecutiveRepeat (h : list EmotionEntry) : Prop :=
  forall i x y,
    nth_error h i = Some x -> nth_error h (S i) = Some y ->
    emotion x <> emotion y.

(** The label of the newest entry. *)
Definition lastLabel (h : list EmotionEntry) : option jsstring :=
  option_map emotion (nth_error h (pred (List.length h))).

(** [lastEmotion] is the label of the newest entry of a history without
    consecutive repeats. *)
Definition Tracked (m : Memory) : Prop :=
  noConsecutiveRepeat (emotionHistory m) /\
  lastLabel (emotionHistory m) = lastEmotion m.

(** The world the process starts in when there is no memory file. *)
Definition initialWorld (clock : nat -> Z) : World :=
  {| memory := initialMemory; now := clock; ticks := 0; trace := [] |}.

Module Tracker.

Ltac unfold_monad :=
  unfold exec, speakText, pushConversation, saveMemory,
         bind, ret, perform, modifyMemory, getMemory, dateNow in *.

(** Running straight-line handler code: the monad and the field updates are
    unfolded, string literals are left as they are. *)
Ltac run_handler :=
  cbv [exec bind ret perform modifyMemory getMemory dateNow speakText
       pushConversation saveMemory set_faces set_conversationLog
       set_emotionHistory set_light set_lastEmotion set_lastFaceDescriptor
       set_lastLidarFrame
       memory now ticks trace fst snd faces conversationLog emotionHistory
       state lastEmotion lastFaceDescriptor lastLidarFrame light].

Lemma differsFrom_spec (e : jsstring) (l : option jsstring) :
  differsFrom e l = false <-> l = Some e.
Proof.
  destruct l as [l|]; simpl.
  - rewrite negb_false_iff, JsString.eqb_eq. split; congruence.
  - split; discriminate.
Qed.

Lemma lastLabel_snoc (h : list EmotionEntry) (x : EmotionEntry) :
  lastLabel (h ++ [x]) = Some (emotion x).
Proof.
  unfold lastLabel. rewrite length_app, Nat.add_1_r. simpl pred.
  rewrite nth_error_app2, Nat.sub_diag by lia. reflexivity.
Qed.

Lemma noConsecutiveRepeat_snoc (h : list EmotionEntry) (x : EmotionEntry) :
  noConsecutiveRepeat h -> lastLabel h <> Some (emotion x) ->
  noConsecutiveRepeat (h ++ [x]).
Proof.
  intros Hh Hlast i a b Ha Hb.
  assert (S i < List.length (h ++ [x]))%nat as Hi
      by (apply nth_error_Some; congruence).
  rewrite length_app, Nat.add_1_r in Hi.
  rewrite nth_error_app1 in Ha by lia.
  destruct (Nat.eq_dec (S i) (List.length h)) as [E|E].
  - rewrite nth_error_app2, <- E, Nat.sub_diag in Hb by lia.
    injection Hb as <-. intros Heq. apply Hlast.
    unfold lastLabel. rewrite <- E. simpl pred. rewrite Ha. simpl. congruence.
  - rewrite nth_error_app1 in Hb by lia. eauto.
Qed.

(** What the emotion block does to the tracked fields. *)
Lemma observeEmotion_same (e : jsstring) (w : World) :
  lastEmotion (memory w) = Some e ->
  exec (observeEmotion (Some e)) w = w.
Proof.
  intros H. unfold exec, observeEmotion.
  destruct (truthy e); trivial.
  unfold bind, getMemory.
  apply differsFrom_spec in H. rewrite H. reflexivity.
Qed.

Lemma observeEmotion_new (e : jsstring) (w : World) :
  truthy e = true -> lastEmotion (memory w) <> Some e ->
  exec (observeEmotion (Some e)) w
  = {| memory :=
         set_emotionHistory
           (emotionHistory (memory w) ++ [mkEmotion (now w (ticks w)) e])
           (set_lastEmotion (Some e) (memory w));
       now := now w; ticks := S (ticks w); trace := trace w |}.
Proof.
  intros Ht H. unfold exec, observeEmotion. rewrite Ht.
  unfold bind, getMemory.
  destruct (differsFrom e (lastEmotion (memory w))) eqn:E.
  - reflexivity.
  - apply differsFrom_spec in E. contradiction.
Qed.

Lemma observeEmotion_falsy (o : option jsstring) (w : World) :
  truthyOpt o = false -> exec (observeEmotion o) w = w.
Proof.
  destruct o as [e|]; simpl; intros H; trivial.
  unfold exec, observeEmotion. rewrite H. reflexivity.
Qed.

Lemma observeEmotion_tracked (o : option jsstring) (w : World) :
  Tracked (memory w) -> Tracked (memory (exec (observeEmotion o) w)).
Proof.
  intros [Hh Hl].
  destruct (truthyOpt o) eqn:Ht.
  - destruct o as [e|]; [|discriminate]. simpl in Ht.
    destruct (differsFrom e (lastEmotion (memory w))) eqn:E.
    + assert (lastEmotion (memory w) <> Some e) as E'
          by (intros E'; apply differsFrom_spec in E'; congruence).
      rewrite observeEmotion_new by trivial. split; simpl.
      * apply noConsecutiveRepeat_snoc; trivial. simpl. congruence.
      * apply lastLabel_snoc.
    + apply differsFrom_spec in E.
      rewrite observeEmotion_same; [split|]; trivial.
  - rewrite observeEmotion_falsy; [split|]; trivial.
Qed.

End Tracker.

(* ================================================================== *)
(** * Frame rules for handlers *)
(* ================================================================== *)

(** [keeps f m]: running [m] does not change the part [f] of the memory. *)
Definition keeps {X A} (f : Memory -> X) (m : M A) : Prop :=
  forall w, f (memory (snd (m w))) = f (memory w).

(** [steady m]: running [m] leaves the clock alone and never takes back a
    reading. *)
Definition steady {A} (m : M A) : Prop :=
  forall w, now (snd (m w)) = now w /\ (ticks w <= ticks (snd (m w)))%nat.

Definition emotionFields (m : Memory) : list EmotionEntry * option jsstring :=
  (emotionHistory m, lastEmotion m).

(** Times along the history never go back. *)
Definition nonDecreasingTimes (h : list EmotionEntry) : Prop :=
  forall i x y,
    nth_error h i = Some x -> nth_error h (S i) = Some y ->
    e_time x <= e_time y.

Definition monotone (clock : nat -> Z) : Prop :=
  forall i j, (i <= j)%nat -> clock i <= clock j.

(** Under a monotone clock: the history is in time order and nothing in it
    is later than the next reading. *)
Definition Chronological (w : World) : Prop :=
  nonDecreasingTimes (emotionHistory (memory w)) /\
  Forall (fun e => e_time e <= now w (ticks w)) (emotionHistory (memory w)).

Module Frame.

Lemma exec_bind {A B} (m : M A) (k : A -> M B) (w : World) :
  exec (bind m k) w = exec (k (fst (m w))) (exec m w).
Proof. unfold exec, bind. destruct (m w). reflexivity. Qed.

Section Keeps.
Context {X : Type} (f : Memory -> X).

Lemma keeps_ret {A} (a : A) : keeps f (ret a).
Proof. intros w. reflexivity. Qed.

Lemma keeps_bind {A B} (m : M A) (k : A -> M B) :
  keeps f m -> (forall a, keeps f (k a)) -> keeps f (bind m k).
Proof.
  intros Hm Hk w. unfold bind. specialize (Hm w).
  destruct (m w) as [a w']. simpl in Hm. rewrite Hk. exact Hm.
Qed.

Lemma keeps_perform (e : Effect) : keeps f (perform e).
Proof. intros w. reflexivity. Qed.

Lemma keeps_dateNow : keeps f dateNow.
Proof. intros w. reflexivity. Qed.

Lemma keeps_getMemory : keeps f getMemory.
Proof. intros w. reflexivity. Qed.

Lemma keeps_modifyMemory (g : Memory -> Memory) :
  (forall m, f (g m) = f m) -> keeps f (modifyMemory g).
Proof. intros H w. simpl. apply H. Qed.

Lemma keeps_saveMemory : keeps f saveMemory.
Proof. intros w. reflexivity. Qed.

Lemma keeps_exec {A} (m : M A) (w : World) :
  keeps f m -> f (memory (exec m w)) = f (memory w).
Proof. intros H. apply H. Qed.

End Keeps.

Lemma steady_ret {A} (a : A) : steady (ret a).
Proof. intros w. simpl. auto. Qed.

Lemma steady_bind {A B} (m : M A) (k : A -> M B) :
  steady m -> (forall a, steady (k a)) -> steady (bind m k).
Proof.
  intros Hm Hk w. unfold bind. specialize (Hm w).
  destruct (m w) as [a w']. simpl in Hm.
  destruct (Hk a w') as [H1 H2]. destruct Hm as [H3 H4].
  split; [congruence | lia].
Qed.

Lemma steady_perform (e : Effect) : steady (perform e).
Proof. intros w. simpl. auto. Qed.

Lemma steady_dateNow : steady dateNow.
Proof. intros w. simpl. auto. Qed.

Lemma steady_getMemory : steady getMemory.
Proof. intros w. simpl. auto. Qed.

Lemma steady_modifyMemory (g : Memory -> Memory) : steady (modifyMemory g).
Proof. intros w. simpl. auto. Qed.

Lemma keeps_pushConversation {X} (f : Memory -> X) a t :
  (forall v m, f (set_conversationLog v m) = f m) ->
  keeps f (pushConversation a t).
Proof.
  intros H. unfold pushConversation.
  apply keeps_bind; [apply keeps_dateNow | intros time].
  apply keeps_modifyMemory. intros; apply H.
Qed.

Lemma keeps_speakText {X} (f : Memory -> X) t s :
  (forall v m, f (set_conversationLog v m) = f m) ->
  keeps f (speakText t s).
Proof.
  intros H. unfold speakText.
  do 2 (apply keeps_bind; [apply keeps_perform | intros _]).
  now apply keeps_pushConversation.
Qed.

Lemma steady_pushConversation a t : steady (pushConversation a t).
Proof.
  unfold pushConversation.
  apply steady_bind; [apply steady_dateNow | intros time].
  apply steady_modifyMemory.
Qed.

Lemma steady_speakText t s : steady (speakText t s).
Proof.
  unfold speakText.
  do 2 (apply steady_bind; [apply steady_perform | intros _]).
  apply steady_pushConversation.
Qed.

Lemma steady_saveMemory : steady saveMemory.
Proof.
  unfold saveMemory.
  apply steady_bind; [apply steady_getMemory | intros m].
  apply steady_perform.
Qed.

(** Both judgements are syntax directed over the handlers' code. *)
Ltac frame_step :=
  match goal with
  | |- keeps _ (if ?c then _ else _) => destruct c
  | |- keeps _ (match ?x with _ => _ end) => destruct x
  | |- keeps _ (bind _ _) => apply keeps_bind; [|intros ?]
  | |- keeps _ (ret _) => apply keeps_ret
  | |- keeps _ (perform _) => apply keeps_perform
  | |- keeps _ dateNow => apply keeps_dateNow
  | |- keeps _ getMemory => apply keeps_getMemory
  | |- keeps _ saveMemory => apply keeps_saveMemory
  | |- keeps _ (modifyMemory _) => apply keeps_modifyMemory; intros; reflexivity
  | |- keeps _ (pushConversation _ _) =>
    apply keeps_pushConversation; intros; reflexivity
  | |- keeps _ (speakText _ _) => apply keeps_speakText; intros; reflexivity
  | |- steady (if ?c then _ else _) => destruct c
  | |- steady (match ?x with _ => _ end) => destruct x
  | |- steady (bind _ _) => apply steady_bind; [|intros ?]
  | |- steady (ret _) => apply steady_ret
  | |- steady (perform _) => apply steady_perform
  | |- steady dateNow => apply steady_dateNow
  | |- steady getMemory => apply steady_getMemory
  | |- steady saveMemory => apply steady_saveMemory
  | |- steady (modifyMemory _) => apply steady_modifyMemory
  | |- steady (pushConversation _ _) => apply steady_pushConversation
  | |- steady (speakText _ _) => apply steady_speakText
  end.

Ltac frame := cbv zeta; repeat frame_step.

Lemma steady_observeEmotion o : steady (observeEmotion o).
Proof. unfold observeEmotion. frame. Qed.

Lemma steady_onFaceData s d e : steady (onFaceData s d e).
Proof. unfold onFaceData. frame; apply steady_observeEmotion. Qed.

Lemma steady_onSmartHome d a : steady (onSmartHome d a).
Proof. unfold onSmartHome. frame. Qed.

Lemma steady_onLidarData s fr : steady (onLidarData s fr).
Proof. unfold onLidarData. frame. Qed.

Section WithHost.
Context {host : Host}.

Lemma steady_handleVoiceCommand t s : steady (handleVoiceCommand t s).
Proof. unfold handleVoiceCommand. frame. Qed.

Lemma steady_onTranscriptReceived s fin t :
  steady (onTranscriptReceived s fin t).
Proof.
  unfold onTranscriptReceived. frame. apply steady_handleVoiceCommand.
Qed.

Lemma steady_handle ev : steady (handle ev).
Proof.
  destruct ev; simpl;
    auto using steady_onFaceData, steady_onSmartHome, steady_onLidarData,
               steady_onTranscriptReceived.
Qed.

(** Only the emotion block of the face-data handler writes the emotion
    fields. *)
Lemma keeps_emotion_handleVoiceCommand t s :
  keeps emotionFields (handleVoiceCommand t s).
Proof. unfold handleVoiceCommand. frame. Qed.

Lemma keeps_emotion_onTranscriptReceived s fin t :
  keeps emotionFields (onTranscriptReceived s fin t).
Proof.
  unfold onTranscriptReceived. frame.
  apply keeps_emotion_handleVoiceCommand.
Qed.

End WithHost.

Lemma keeps_emotion_onSmartHome d a : keeps emotionFields (onSmartHome d a).
Proof. unfold onSmartHome. frame. Qed.

Lemma keeps_emotion_onLidarData s fr : keeps emotionFields (onLidarData s fr).
Proof. unfold onLidarData. frame. Qed.

End Frame.

Module TrackerClaims.
Import Tracker Frame.

Lemma Tracked_fields (m1 m2 : Memory) :
  emotionFields m1 = emotionFields m2 -> Tracked m2 -> Tracked m1.
Proof.
  unfold emotionFields, Tracked. intros H. injection H as -> ->. trivial.
Qed.

Lemma onFaceData_emotionFields s d e (w : World) :
  emotionFields (memory (exec (onFaceData s d e) w))
  = emotionFields (memory (exec (observeEmotion e) w)).
Proof.
  unfold onFaceData. rewrite exec_bind. apply keeps_exec. frame.
Qed.

Lemma nonDecreasingTimes_snoc (h : list EmotionEntry) (x : EmotionEntry) :
  nonDecreasingTimes h -> Forall (fun e => e_time e <= e_time x) h ->
  nonDecreasingTimes (h ++ [x]).
Proof.
  intros Hh Hall i a b Ha Hb.
  assert (S i < List.length (h ++ [x]))%nat as Hi
      by (apply nth_error_Some; congruence).
  rewrite length_app, Nat.add_1_r in Hi.
  rewrite nth_error_app1 in Ha by lia.
  destruct (Nat.eq_dec (S i) (List.length h)) as [E|E].
  - rewrite nth_error_app2, <- E, Nat.sub_diag in Hb by lia.
    injection Hb as <-.
    rewrite Forall_forall in Hall. apply Hall.
    eapply nth_error_In; eauto.
  - rewrite nth_error_app1 in Hb by lia. eauto.
Qed.

Lemma Chronological_later (w w' : World) :
  monotone (now w) ->
  emotionHistory (memory w') = emotionHistory (memory w) ->
  now w' = now w -> (ticks w <= ticks w')%nat ->
  Chronological w -> Chronological w'.
Proof.
  intros Hmono Hh Hn Ht [H1 H2]. unfold Chronological.
  rewrite Hh, Hn. split; trivial.
  eapply Forall_impl; [|exact H2]. simpl. intros e He.
  specialize (Hmono _ _ Ht). lia.
Qed.

Lemma observeEmotion_chronological (o : option jsstring) (w : World) :
  monotone (now w) -> Chronological w ->
  Chronological (exec (observeEmotion o) w).
Proof.
  intros Hmono [H1 H2].
  destruct (truthyOpt o) eqn:Ht.
  - destruct o as [e|]; [|discriminate]. simpl in Ht.
    destruct (differsFrom e (lastEmotion (memory w))) eqn:E.
    + assert (lastEmotion (memory w) <> Some e) as E'
          by (intros E'; apply differsFrom_spec in E'; congruence).
      rewrite observeEmotion_new by trivial. split; simpl.
      * apply nonDecreasingTimes_snoc; trivial.
      * apply Forall_app. split.
        -- eapply Forall_impl; [|exact H2]. simpl. intros x Hx.
           specialize (Hmono (ticks w) (S (ticks w))). lia.
        -- constructor; [|constructor]. simpl. apply Hmono. lia.
    + apply differsFrom_spec in E.
      rewrite observeEmotion_same; [split|]; trivial.
  - rewrite observeEmotion_falsy; [split|]; trivial.
Qed.

Section WithHost.
Context {host : Host}.

Lemma handle_emotionFields (ev : Event) (w : World) :
  emotionFields (memory (exec (handle ev) w))
  = match ev with
    | FaceData _ _ e => emotionFields (memory (exec (observeEmotion e) w))
    | _ => emotionFields (memory w)
    end.
Proof.
  destruct ev; unfold handle.
  - apply onFaceData_emotionFields.
  - apply keeps_exec, keeps_emotion_onSmartHome.
  - apply keeps_exec, keeps_emotion_onLidarData.
  - apply keeps_exec, keeps_emotion_onTranscriptReceived.
Qed.

Lemma handle_tracked (ev : Event) (w : World) :
  Tracked (memory w) -> Tracked (memory (exec (handle ev) w)).
Proof.
  intros H. pose proof (handle_emotionFields ev w) as Hf.
  destruct ev as [s d e| | |];
    (eapply Tracked_fields; [exact Hf|]); trivial.
  now apply observeEmotion_tracked.
Qed.

Lemma handle_chronological (ev : Event) (w : World) :
  monotone (now w) -> Chronological w -> Chronological (exec (handle ev) w).
Proof.
  intros Hmono H.
  pose proof (handle_emotionFields ev w) as Hf.
  destruct (steady_handle ev w) as [Hn Ht]. fold (exec (handle ev) w) in Hn, Ht.
  apply (f_equal fst) in Hf. unfold emotionFields in Hf.
  destruct ev as [s d e| | |]; simpl fst in Hf;
    try (eapply Chronological_later; eauto; fail).
  rename Hf into Hh.
  destruct (steady_observeEmotion e w) as [Hn' Ht'].
  fold (exec (observeEmotion e) w) in Hn', Ht'.
  apply Chronological_later with (exec (observeEmotion e) w).
  - now rewrite Hn'.
  - exact Hh.
  - congruence.
  - unfold handle, onFaceData in *. rewrite exec_bind.
    match goal with |- (_ <= ticks (exec ?m ?w1))%nat =>
      assert (steady m) as Hs by frame; apply (Hs w1) end.
  - now apply observeEmotion_chronological.
Qed.

Lemma run_cons (ev : Event) (evs : list Event) (w : World) :
  run (ev :: evs) w = run evs (exec (handle ev) w).
Proof. reflexivity. Qed.

Lemma run_now (evs : list Event) (w : World) : now (run evs w) = now w.
Proof.
  revert w; induction evs as [|ev evs IH]; intros w; trivial.
  rewrite run_cons, IH. apply (steady_handle ev w).
Qed.

Lemma run_tracked (evs : list Event) (w : World) :
  Tracked (memory w) -> Tracked (memory (run evs w)).
Proof.
  revert w; induction evs as [|ev evs IH]; intros w H; trivial.
  rewrite run_cons. apply IH. now apply handle_tracked.
Qed.

Lemma run_chronological (evs : list Event) (w : World) :
  monotone (now w) -> Chronological w -> Chronological (run evs w).
Proof.
  revert w; induction evs as [|ev evs IH]; intros w Hm H; trivial.
  rewrite run_cons. apply IH.
  - destruct (steady_handle ev w) as [Hn _].
    unfold exec. now rewrite Hn.
  - now apply handle_chronological.
Qed.

Lemma run_snoc (evs : list Event) (ev : Event) (w : World) :
  run (evs ++ [ev]) w = exec (handle ev) (run evs w).
Proof. unfold run. now rewrite fold_left_app. Qed.

(** One face-data event with a label, seen from the emotion fields. *)
Lemma faceData_step s d (e : jsstring) (w : World) :
  truthy e = true ->
  let w' := exec (handle (FaceData s d (Some e))) w in
  (lastEmotion (memory w) = Some e ->
   emotionFields (memory w') = emotionFields (memory w)) /\
  (lastEmotion (memory w) <> Some e ->
   emotionFields (memory w')
   = (emotionHistory (memory w) ++ [mkEmotion (now w (ticks w)) e],
      Some e)).
Proof.
  intros Ht w'. unfold w'. rewrite handle_emotionFields. split; intros H.
  - now rewrite observeEmotion_same.
  - now rewrite observeEmotion_new.
Qed.

End WithHost.
End TrackerClaims.

(** The labels of the history and the last label, after one more labelled
    observation. *)
Definition track (st : list jsstring * option jsstring) (e : jsstring)
  : list jsstring * option jsstring :=
  if differsFrom e (snd st) then (fst st ++ [e], Some e) else st.

Definition labels (m : Memory) : list jsstring * option jsstring :=
  (map emotion (emotionHistory m), lastEmotion m).

(** A face-data event for each observation [(socket, descriptor, label)]. *)
Definition faceEvents (obs : list (SocketId * option Descriptor * jsstring))
  : list Event :=
  map (fun o => FaceData (fst (fst o)) (snd (fst o)) (Some (snd o))) obs.

Module TrackerExample.
Import Tracker Frame TrackerClaims.

Section WithHost.
Context {host : Host}.

Lemma labels_step s d (e : jsstring) (w : World) :
  truthy e = true ->
  labels (memory (exec (handle (FaceData s d (Some e))) w))
  = track (labels (memory w)) e.
Proof.
  intros Ht. destruct (faceData_step s d e w Ht) as [Hsame Hnew].
  unfold track, labels in *. simpl snd. cbn [handle] in *.
  destruct (differsFrom e (lastEmotion (memory w))) eqn:E.
  - assert (lastEmotion (memory w) <> Some e) as E'
        by (intros E'; apply differsFrom_spec in E'; congruence).
    specialize (Hnew E'). unfold emotionFields in Hnew.
    injection Hnew as -> ->. rewrite map_app. reflexivity.
  - apply differsFrom_spec in E. specialize (Hsame E).
    unfold emotionFields in Hsame. injection Hsame as -> ->. reflexivity.
Qed.

Lemma labels_run obs (w : World) :
  Forall (fun o => truthy (snd o) = true) obs ->
  labels (memory (run (faceEvents obs) w))
  = fold_left track (map snd obs) (labels (memory w)).
Proof.
  revert w; induction obs as [|[[s d] e] obs IH]; intros w Hall; trivial.
  inversion Hall as [|? ? He Hrest]; subst.
  change (faceEvents ((s, d, e) :: obs))
    with (FaceData s d (Some e) :: faceEvents obs).
  rewrite run_cons, IH by trivial.
  rewrite labels_step by exact He. reflexivity.
Qed.

End WithHost.

Lemma track_example (a b : jsstring) :
  a <> b ->
  fold_left track [a; a; b; b; b; a] ([], None) = ([a; b; a], Some a).
Proof.
  intros Hab.
  assert (JsString.eqb a b = false) as Eab by now apply JsString.eqb_neq.
  assert (JsString.eqb b a = false) as Eba
      by (apply JsString.eqb_neq; congruence).
  unfold track, differsFrom; simpl.
  repeat (progress (rewrite ?JsString.eqb_refl, ?Eab, ?Eba; simpl)).
  reflexivity.
Qed.

Lemma initial_tracked : Tracked initialMemory.
Proof.
  split; [|reflexivity]. intros [|i] x y H; discriminate.
Qed.

Lemma initial_chronological clock : Chronological (initialWorld clock).
Proof.
  split; [|constructor]. intros [|i] x y H; discriminate.
Qed.

Section Claim.
Context {host : Host}.

(** C2. From the initial memory and for every sequence of events, the
    emotion history never holds two consecutive entries with one label, and
    under a monotone clock its timestamps never decrease.  A labelled
    observation equal to [lastEmotion] leaves history and [lastEmotion] as
    they are; a different one sets [lastEmotion] and appends exactly one
    entry.  The observations a, a, b, b, b, a (a and b different labels)
    leave exactly the three entries a, b, a. *)
Theorem emotion_history_has_no_consecutive_repeat
        (clock : nat -> Z) (evs : list Event) :
  let w := run evs (initialWorld clock) in
  noConsecutiveRepeat (emotionHistory (memory w)) /\
  (monotone clock -> nonDecreasingTimes (emotionHistory (memory w))) /\
  (forall s d e, truthy e = true ->
     let w' := exec (handle (FaceData s d (Some e))) w in
     (lastEmotion (memory w) = Some e ->
      emotionHistory (memory w') = emotionHistory (memory w) /\
      lastEmotion (memory w') = lastEmotion (memory w)) /\
     (lastEmotion (memory w) <> Some e ->
      emotionHistory (memory w')
      = emotionHistory (memory w) ++ [mkEmotion (now w (ticks w)) e] /\
      lastEmotion (memory w') = Some e)) /\
  (forall a b obs,
     truthy a = true -> truthy b = true -> a <> b ->
     map snd obs = [a; a; b; b; b; a] -> evs = faceEvents obs ->
     map emotion (emotionHistory (memory w)) = [a; b; a]).
Proof.
  intros w. split; [|split; [|split]].
  - apply (run_tracked evs (initialWorld clock)), initial_tracked.
  - intros Hm.
    apply (run_chronological evs (initialWorld clock)); trivial.
    apply initial_chronological.
  - intros s d e Ht w'.
    destruct (faceData_step s d e w Ht) as [Hsame Hnew].
    unfold emotionFields in Hsame, Hnew. fold w' in Hsame, Hnew.
    split; intros H.
    + specialize (Hsame H). injection Hsame as -> ->. auto.
    + specialize (Hnew H). injection Hnew as -> ->. auto.
  - intros a b obs Ha Hb Hab Hobs ->.
    assert (Forall (fun o => truthy (snd o) = true) obs) as Hall.
    { apply Forall_forall. intros o Ho.
      apply (in_map snd) in Ho. rewrite Hobs in Ho. simpl in Ho.
      intuition congruence. }
    pose proof (labels_run obs (initialWorld clock) Hall) as H.
    rewrite Hobs in H. simpl labels at 2 in H.
    change (labels initialMemory) with (@nil jsstring, @None jsstring) in H.
    rewrite track_example in H by trivial.
    unfold labels in H. fold w in H. congruence.
Qed.

End Claim.

Definition sad : jsstring := js "sad".
Definition happy : jsstring := js "happy".

Definition sixObservations : list (SocketId * option Descriptor * jsstring) :=
  map (fun e => (1%nat, None, e)) [sad; sad; happy; happy; happy; sad].

(** The observations sad, sad, happy, happy, happy, sad on one socket. *)
Lemma emotion_history_has_no_consecutive_repeat_witness :
  map emotion
      (emotionHistory
         (memory (run (host := basicHost) (faceEvents sixObservations)
                      (initialWorld Z.of_nat))))
  = [sad; happy; sad].
Proof.
  apply (emotion_history_has_no_consecutive_repeat (host := basicHost)
           Z.of_nat (faceEvents sixObservations))
    with (obs := sixObservations).
  - reflexivity.
  - reflexivity.
  - discriminate.
  - reflexivity.
  - reflexivity.
Defined.

End TrackerExample.

(* ================================================================== *)
(** * Voice commands *)
(* ================================================================== *)

(** The texts sent to speech output, oldest first. *)
Definition ttsEmitted (tr : list Effect) : list jsstring :=
  flat_map (fun e => match e with SocketEmitTts _ t => [t] | _ => [] end) tr.

(** The number of writes of the memory file. *)
Definition flushes (tr : list Effect) : nat :=
  List.length
    (filter (fun e => match e with WriteMemoryFile _ => true | _ => false end)
            tr).

(** The rule of the interpreter a lower-cased text falls under. *)
Inductive Rule := LightOn | LightOff | RememberFace | Fallback.

Definition ruleOf (text : jsstring) : Rule :=
  if includes text (js "включи свет") then LightOn
  else if includes text (js "выключи свет") then LightOff
  else if includes text (js "запомни лицо") then RememberFace
  else Fallback.

Module Commands.
Import Tracker.

Lemma strictEqString_spec (v : JsValue) (lit : jsstring) :
  strictEqString v lit = true <-> v = JsString lit.
Proof.
  destruct v; simpl; try (split; [discriminate | congruence]).
  rewrite JsString.eqb_eq. split; congruence.
Qed.

Lemma flushes_app (a b : list Effect) :
  flushes (a ++ b) = (flushes a + flushes b)%nat.
Proof. unfold flushes. now rewrite filter_app, length_app. Qed.

Lemma ttsEmitted_app (a b : list Effect) :
  ttsEmitted (a ++ b) = ttsEmitted a ++ ttsEmitted b.
Proof. unfold ttsEmitted. now rewrite flat_map_app. Qed.

Section WithHost.
Context {host : Host}.

(** The four branches of the interpreter, each as one world update. *)
Lemma handleVoiceCommand_lightOn t s (w : World) :
  ruleOf (toLowerCase t) = LightOn ->
  exec (handleVoiceCommand t s) w
  = let reply := js "Хорошо, включаю свет." in
    let m' := set_conversationLog
                (conversationLog (memory w)
                 ++ [mkEntry (now w (ticks w)) assistant reply;
                     mkEntry (now w (S (ticks w))) assistant
                             (js "Свет включен.")])
                (set_light true (memory w)) in
    {| memory := m'; now := now w; ticks := S (S (ticks w));
       trace := trace w
                ++ [ConsoleLog (js "💬 Assistant says: " ++ reply);
                    SocketEmitTts s reply;
                    ConsoleLog (js "💡 Command: Light ON");
                    IoEmitLightState true;
                    WriteMemoryFile m'] |}.
Proof.
  unfold ruleOf, handleVoiceCommand. cbv zeta.
  destruct (includes (toLowerCase t) (js "включи свет")).
  - intros _. run_handler.
    rewrite <- !app_assoc. reflexivity.
  - destruct (includes (toLowerCase t) (js "выключи свет")); [discriminate|].
    destruct (includes (toLowerCase t) (js "запомни лицо")); discriminate.
Qed.

Lemma handleVoiceCommand_lightOff t s (w : World) :
  ruleOf (toLowerCase t) = LightOff ->
  exec (handleVoiceCommand t s) w
  = let reply := js "Выключаю свет." in
    let m' := set_conversationLog
                (conversationLog (memory w)
                 ++ [mkEntry (now w (ticks w)) assistant reply;
                     mkEntry (now w (S (ticks w))) assistant
                             (js "Свет выключен.")])
                (set_light false (memory w)) in
    {| memory := m'; now := now w; ticks := S (S (ticks w));
       trace := trace w
                ++ [ConsoleLog (js "💬 Assistant says: " ++ reply);
                    SocketEmitTts s reply;
                    ConsoleLog (js "💡 Command: Light OFF");
                    IoEmitLightState false;
                    WriteMemoryFile m'] |}.
Proof.
  unfold ruleOf, handleVoiceCommand. cbv zeta.
  destruct (includes (toLowerCase t) (js "включи свет")); [discriminate|].
  destruct (includes (toLowerCase t) (js "выключи свет")).
  - intros _. run_handler.
    rewrite <- !app_assoc. reflexivity.
  - destruct (includes (toLowerCase t) (js "запомни лицо")); discriminate.
Qed.

Lemma handleVoiceCommand_fallback t s (w : World) :
  ruleOf (toLowerCase t) = Fallback ->
  exec (handleVoiceCommand t s) w
  = let reply := js "Извините, я не понял команду." in
    let m' := set_conversationLog
                (conversationLog (memory w)
                 ++ [mkEntry (now w (ticks w)) assistant reply;
                     mkEntry (now w (S (ticks w))) assistant
                             (js "Не понял команду.")])
                (memory w) in
    {| memory := m'; now := now w; ticks := S (S (ticks w));
       trace := trace w
                ++ [ConsoleLog (js "🤖 Forwarding to AI (not implemented): "
                                ++ t);
                    ConsoleLog (js "💬 Assistant says: " ++ reply);
                    SocketEmitTts s reply;
                    WriteMemoryFile m'] |}.
Proof.
  unfold ruleOf, handleVoiceCommand. cbv zeta.
  destruct (includes (toLowerCase t) (js "включи свет")); [discriminate|].
  destruct (includes (toLowerCase t) (js "выключи свет")); [discriminate|].
  destruct (includes (toLowerCase t) (js "запомни лицо")); [discriminate|].
  intros _. run_handler.
  rewrite <- !app_assoc. reflexivity.
Qed.

(** The remember-face branch replies and logs the reply; only with a name
    and a descriptor does it store a record. *)
Lemma handleVoiceCommand_remember_reply t s (w : World) (reply : jsstring) :
  ruleOf (toLowerCase t) = RememberFace ->
  (truthyOpt (extractName (toLowerCase t)) = false /\
   reply = js "Как назвать этого человека?") \/
  (truthyOpt (extractName (toLowerCase t)) = true /\
   lastFaceDescriptor (memory w) = None /\
   reply = js "Не вижу лицо для запоминания.") ->
  exec (handleVoiceCommand t s) w
  = let m' := set_conversationLog
                (conversationLog (memory w)
                 ++ [mkEntry (now w (ticks w)) assistant reply])
                (memory w) in
    {| memory := m'; now := now w; ticks := S (ticks w);
       trace := trace w
                ++ [ConsoleLog (js "💬 Assistant says: " ++ reply);
                    SocketEmitTts s reply;
                    WriteMemoryFile m'] |}.
Proof.
  unfold ruleOf, handleVoiceCommand. cbv zeta.
  destruct (includes (toLowerCase t) (js "включи свет")); [discriminate|].
  destruct (includes (toLowerCase t) (js "выключи свет")); [discriminate|].
  destruct (includes (toLowerCase t) (js "запомни лицо")); [|discriminate].
  destruct w as [[fs cl eh st le lfd llf] clock tk tr].
  intros _ [[Hn ->]|(Hn & Hd & ->)]; rewrite Hn; cbn [negb].
  - run_handler. rewrite <- !app_assoc. reflexivity.
  - cbv [lastFaceDescriptor memory] in Hd. subst lfd.
    run_handler. rewrite <- !app_assoc. reflexivity.
Qed.

Lemma handleVoiceCommand_remember_store t s (w : World) n v :
  ruleOf (toLowerCase t) = RememberFace ->
  extractName (toLowerCase t) = Some n -> truthy n = true ->
  lastFaceDescriptor (memory w) = Some v ->
  exec (handleVoiceCommand t s) w
  = let reply := js "Запомнил лицо как " ++ n ++ js "." in
    let m' := set_conversationLog
                (conversationLog (memory w)
                 ++ [mkEntry (now w (ticks w)) assistant reply;
                     mkEntry (now w (S (ticks w))) system
                             (js "Face " ++ quote ++ n ++ quote
                                 ++ js " remembered")])
                (set_faces (faces (memory w) ++ [mkFace n v]) (memory w)) in
    {| memory := m'; now := now w; ticks := S (S (ticks w));
       trace := trace w
                ++ [ConsoleLog (js "💬 Assistant says: " ++ reply);
                    SocketEmitTts s reply;
                    ConsoleLog (js "👤 Face saved: " ++ n);
                    WriteMemoryFile m';
                    WriteMemoryFile m'] |}.
Proof.
  unfold ruleOf, handleVoiceCommand. cbv zeta.
  destruct (includes (toLowerCase t) (js "включи свет")); [discriminate|].
  destruct (includes (toLowerCase t) (js "выключи свет")); [discriminate|].
  destruct (includes (toLowerCase t) (js "запомни лицо")); [|discriminate].
  destruct w as [[fs cl eh st le lfd llf] clock tk tr].
  intros _ Hn Ht Hd. rewrite Hn. cbn [truthyOpt]. rewrite Ht. cbn [negb].
  cbv [lastFaceDescriptor memory] in Hd. subst lfd.
  run_handler. rewrite <- !app_assoc. reflexivity.
Qed.

End WithHost.
End Commands.

(** Does the remember-face branch store a record for this transcript? *)
Definition storesFace {host : Host} (t : jsstring) (m : Memory) : bool :=
  match ruleOf (toLowerCase t) with
  | RememberFace =>
    truthyOpt (extractName (toLowerCase t)) &&
    match lastFaceDescriptor m with Some _ => true | None => false end
  | _ => false
  end.

(** A world whose memory holds [v] as the last face descriptor. *)
Definition worldSeeing (v : Descriptor) : World :=
  {| memory := set_lastFaceDescriptor (Some v) initialMemory;
     now := Z.of_nat; ticks := 0; trace := [] |}.

Module CommandClaims.
Import Tracker Commands.

Lemma basicHost_lower_on :
  toLowerCase (Host := basicHost) (js "включи свет") = js "включи свет".
Proof. vm_compute. reflexivity. Qed.

Lemma basicHost_lower_off :
  toLowerCase (Host := basicHost) (js "выключи свет") = js "выключи свет".
Proof. vm_compute. reflexivity. Qed.

Lemma basicHost_lower_anna :
  toLowerCase (Host := basicHost) (js "запомни лицо как Анна")
  = js "запомни лицо как анна".
Proof. vm_compute. reflexivity. Qed.

Lemma rule_on : ruleOf (js "включи свет") = LightOn.
Proof. vm_compute. reflexivity. Qed.

Lemma rule_off : ruleOf (js "выключи свет") = LightOff.
Proof. vm_compute. reflexivity. Qed.

Lemma rule_anna : ruleOf (js "запомни лицо как анна") = RememberFace.
Proof. vm_compute. reflexivity. Qed.

Lemma name_anna : extractName (js "запомни лицо как анна") = Some (js "анна").
Proof. vm_compute. reflexivity. Qed.

Section WithHost.
Context {host : Host}.

(** C4. Interpreting "включи свет" sets [state.light] to true, sends exactly
    one reply to speech output and appends two assistant entries to the log:
    the reply, logged by [speakText], and the separate confirmation
    "Свет включен."; interpreting "выключи свет" afterwards sets
    [state.light] back to false, again with one reply and its own separate
    confirmation entry. *)
Theorem light_commands_toggle_and_confirm (s : SocketId) (w : World) :
  toLowerCase (js "включи свет") = js "включи свет" ->
  toLowerCase (js "выключи свет") = js "выключи свет" ->
  let w1 := exec (handleVoiceCommand (js "включи свет") s) w in
  let w2 := exec (handleVoiceCommand (js "выключи свет") s) w1 in
  light (state (memory w1)) = true /\
  conversationLog (memory w1)
  = conversationLog (memory w)
    ++ [mkEntry (now w (ticks w)) assistant (js "Хорошо, включаю свет.");
        mkEntry (now w (S (ticks w))) assistant (js "Свет включен.")] /\
  ttsEmitted (trace w1) = ttsEmitted (trace w) ++ [js "Хорошо, включаю свет."] /\
  light (state (memory w2)) = false /\
  conversationLog (memory w2)
  = conversationLog (memory w1)
    ++ [mkEntry (now w1 (ticks w1)) assistant (js "Выключаю свет.");
        mkEntry (now w1 (S (ticks w1))) assistant (js "Свет выключен.")] /\
  ttsEmitted (trace w2) = ttsEmitted (trace w1) ++ [js "Выключаю свет."].
Proof.
  intros Hon Hoff w1 w2.
  assert (E1 : ruleOf (toLowerCase (js "включи свет")) = LightOn)
    by (rewrite Hon; exact rule_on).
  assert (E2 : ruleOf (toLowerCase (js "выключи свет")) = LightOff)
    by (rewrite Hoff; exact rule_off).
  unfold w2. rewrite (handleVoiceCommand_lightOff _ s w1 E2).
  unfold w1. rewrite (handleVoiceCommand_lightOn _ s w E1).
  cbv zeta. cbn [memory trace now ticks].
  rewrite !ttsEmitted_app.
  split; [reflexivity|]. split; [reflexivity|]. split; [reflexivity|].
  split; [reflexivity|]. split; reflexivity.
Qed.

(** C5. Interpreting "запомни лицо как Анна" lower-cases the transcript
    before the name is captured: with a last face descriptor V, exactly one
    record named "анна" with descriptor V is appended to the faces.  Without
    a descriptor, or when no name is extracted, no record is appended and a
    clarifying reply is sent; the only log entry these two cases append is
    the reply itself, logged by [speakText]. *)
Theorem remember_face_stores_lowercased_name (s : SocketId) (w : World) :
  toLowerCase (js "запомни лицо как Анна") = js "запомни лицо как анна" ->
  let anna := js "запомни лицо как Анна" in
  (forall v, lastFaceDescriptor (memory w) = Some v ->
     let w' := exec (handleVoiceCommand anna s) w in
     faces (memory w') = faces (memory w) ++ [mkFace (js "анна") v] /\
     conversationLog (memory w')
     = conversationLog (memory w)
       ++ [mkEntry (now w (ticks w)) assistant
                   (js "Запомнил лицо как " ++ js "анна" ++ js ".");
           mkEntry (now w (S (ticks w))) system
                   (js "Face " ++ quote ++ js "анна" ++ quote
                       ++ js " remembered")]) /\
  (lastFaceDescriptor (memory w) = None ->
     let w' := exec (handleVoiceCommand anna s) w in
     faces (memory w') = faces (memory w) /\
     ttsEmitted (trace w')
     = ttsEmitted (trace w) ++ [js "Не вижу лицо для запоминания."] /\
     conversationLog (memory w')
     = conversationLog (memory w)
       ++ [mkEntry (now w (ticks w)) assistant
                   (js "Не вижу лицо для запоминания.")]) /\
  (forall t,
     ruleOf (toLowerCase t) = RememberFace ->
     truthyOpt (extractName (toLowerCase t)) = false ->
     let w' := exec (handleVoiceCommand t s) w in
     faces (memory w') = faces (memory w) /\
     ttsEmitted (trace w')
     = ttsEmitted (trace w) ++ [js "Как назвать этого человека?"] /\
     conversationLog (memory w')
     = conversationLog (memory w)
       ++ [mkEntry (now w (ticks w)) assistant
                   (js "Как назвать этого человека?")]).
Proof.
  intros Hlow anna.
  assert (Er : ruleOf (toLowerCase anna) = RememberFace)
    by (unfold anna; rewrite Hlow; exact rule_anna).
  assert (En : extractName (toLowerCase anna) = Some (js "анна"))
    by (unfold anna; rewrite Hlow; exact name_anna).
  split; [|split].
  - intros v Hv w'. unfold w'.
    rewrite (handleVoiceCommand_remember_store anna s w (js "анна") v Er En
               eq_refl Hv).
    cbv zeta. cbn [memory]. split; reflexivity.
  - intros Hv w'. unfold w'.
    rewrite (handleVoiceCommand_remember_reply anna s w
               (js "Не вижу лицо для запоминания.") Er).
    + cbv zeta. cbn [memory trace]. rewrite ttsEmitted_app.
      split; [reflexivity | split; reflexivity].
    + right. rewrite En. split; [reflexivity | split; [exact Hv | reflexivity]].
  - intros t Hr Hn w'. unfold w'.
    rewrite (handleVoiceCommand_remember_reply t s w
               (js "Как назвать этого человека?") Hr).
    + cbv zeta. cbn [memory trace]. rewrite ttsEmitted_app.
      split; [reflexivity | split; reflexivity].
    + left. split; [exact Hn | reflexivity].
Qed.

(** C6. A transcript that falls under no command rule leaves the faces, the
    smart-home state and the emotion history as they are and appends two
    assistant entries to the log: the spoken reply, logged by [speakText],
    and the entry "Не понял команду.". *)
Theorem unrecognized_transcript_only_logs (t : jsstring) (s : SocketId)
        (w : World) :
  ruleOf (toLowerCase t) = Fallback ->
  let w' := exec (handleVoiceCommand t s) w in
  faces (memory w') = faces (memory w) /\
  state (memory w') = state (memory w) /\
  emotionHistory (memory w') = emotionHistory (memory w) /\
  conversationLog (memory w')
  = conversationLog (memory w)
    ++ [mkEntry (now w (ticks w)) assistant
                (js "Извините, я не понял команду.");
        mkEntry (now w (S (ticks w))) assistant (js "Не понял команду.")].
Proof.
  intros Hr w'. unfold w'.
  rewrite (handleVoiceCommand_fallback t s w Hr).
  cbv zeta. cbn [memory].
  split; [reflexivity|]. split; [reflexivity|]. split; reflexivity.
Qed.

End WithHost.
End CommandClaims.

Module CommandExamples.
Import Commands CommandClaims.

Definition privet : jsstring := js "привет".

Lemma rule_privet : ruleOf (toLowerCase (Host := basicHost) privet) = Fallback.
Proof. vm_compute. reflexivity. Qed.

(** Both light commands on socket 1, from the initial world. *)
Lemma light_commands_toggle_and_confirm_witness :
  let w1 := exec (handleVoiceCommand (host := basicHost) (js "включи свет")
                    1%nat) (initialWorld Z.of_nat) in
  let w2 := exec (handleVoiceCommand (host := basicHost) (js "выключи свет")
                    1%nat) w1 in
  light (state (memory w1)) = true /\ light (state (memory w2)) = false.
Proof.
  intros w1 w2.
  pose proof (light_commands_toggle_and_confirm (host := basicHost) 1%nat
                (initialWorld Z.of_nat)
                basicHost_lower_on basicHost_lower_off) as H.
  cbv zeta in H. fold w1 in H. fold w2 in H.
  split; [apply H | apply H].
Defined.

(** "запомни лицо как Анна" on socket 1 while the descriptor [0] is the
    last one seen. *)
Lemma remember_face_stores_lowercased_name_witness :
  faces (memory (exec (handleVoiceCommand (host := basicHost)
                         (js "запомни лицо как Анна") 1%nat)
                      (worldSeeing [zero])))
  = faces (memory (worldSeeing [zero])) ++ [mkFace (js "анна") [zero]].
Proof.
  apply (remember_face_stores_lowercased_name (host := basicHost) 1%nat
           (worldSeeing [zero]) basicHost_lower_anna).
  reflexivity.
Defined.

(** The record stored for "запомни лицо как Анна" is not named "Анна", and
    the reply for a missing descriptor is appended to the log. *)
Lemma remembered_name_is_lowercased_and_replies_are_logged :
  faces (memory (exec (handleVoiceCommand (host := basicHost)
                         (js "запомни лицо как Анна") 1%nat)
                      (worldSeeing [zero])))
  <> [mkFace (js "Анна") [zero]] /\
  List.length
    (conversationLog
       (memory (exec (handleVoiceCommand (host := basicHost)
                        (js "запомни лицо как Анна") 1%nat)
                     (initialWorld Z.of_nat))))
  = 1%nat.
Proof.
  split.
  - vm_compute. discriminate.
  - vm_compute. reflexivity.
Qed.

Lemma unrecognized_transcript_only_logs_witness :
  conversationLog
    (memory (exec (handleVoiceCommand (host := basicHost) privet 1%nat)
                  (initialWorld Z.of_nat)))
  = [mkEntry 0 assistant (js "Извините, я не понял команду.");
     mkEntry 1 assistant (js "Не понял команду.")].
Proof.
  apply (unrecognized_transcript_only_logs (host := basicHost) privet 1%nat
           (initialWorld Z.of_nat) rule_privet).
Defined.

(** For the transcript "привет" the log grows by two assistant entries, not
    by one. *)
Lemma unrecognized_transcript_appends_two_entries :
  ruleOf (toLowerCase (Host := basicHost) privet) = Fallback /\
  map from
      (conversationLog
         (memory (exec (handleVoiceCommand (host := basicHost) privet 1%nat)
                       (initialWorld Z.of_nat))))
  = [assistant; assistant].
Proof.
  split.
  - exact rule_privet.
  - vm_compute. reflexivity.
Qed.

End CommandExamples.

(* ================================================================== *)
(** * Flushes *)
(* ================================================================== *)



(** The step ends with a write of the memory as the step leaves it. *)
Definition endsWithFlush (w w' : World) : Prop :=
  exists effects,
    trace w' = trace w ++ effects ++ [WriteMemoryFile (memory w')].

Module Flush.
Import Tracker Frame Commands.












(** The smart-home handler, as one world update. *)
Lemma onSmartHome_light (action : JsValue) (w : World) :
  exec (onSmartHome (JsString (js "light")) action) w
  = let m' := set_light (strictEqString action (js "on")) (memory w) in
    {| memory := m'; now := now w; ticks := ticks w;
       trace := trace w
                ++ [ConsoleLog (js "💡 Light state changed via UI: "
                                ++ showBool (light (state m')));
                    IoEmitLightState (light (state m'));
                    WriteMemoryFile m'] |}.
Proof.
  unfold onSmartHome.
  replace (strictEqString (JsString (js "light")) (js "light")) with true
    by (symmetry; apply strictEqString_spec; reflexivity).
  destruct w as [[fs cl eh st le lfd llf] clock tk tr].
  run_handler. rewrite <- !app_assoc. reflexivity.
Qed.

Lemma onSmartHome_other (device action : JsValue) (w : World) :
  device <> JsString (js "light") ->
  exec (onSmartHome device action) w = w.
Proof.
  intros Hd. unfold onSmartHome.
  destruct (strictEqString device (js "light")) eqn:E.
  - apply strictEqString_spec in E. contradiction.
  - reflexivity.
Qed.

Lemma endsWithFlush_saveMemory (w w1 : World) (effects : list Effect) :
  trace w1 = trace w ++ effects ->
  endsWithFlush w (exec saveMemory w1).
Proof.
  intros H. exists effects. unfold exec, saveMemory, bind, getMemory, perform.
  cbn [snd trace memory]. rewrite H, <- app_assoc. reflexivity.
Qed.

End Flush.

(** The world in which the transcript handler calls the interpreter: the
    transcript is printed, logged as a user entry and echoed first. *)
Definition heard (socket : SocketId) (transcript : jsstring) (w : World)
  : World :=
  {| memory := set_conversationLog
                 (conversationLog (memory w)
                  ++ [mkEntry (now w (ticks w)) user transcript])
                 (memory w);
     now := now w; ticks := S (ticks w);
     trace := trace w ++ [ConsoleLog (js "👂 Heard: " ++ transcript);
                          SocketEmitTranscript socket transcript] |}.

Module FlushClaims.
Import Tracker Frame Commands Flush.

Section WithHost.
Context {host : Host}.

Lemma handleVoiceCommand_flushes (t : jsstring) (s : SocketId) (w : World) :
  let w' := exec (handleVoiceCommand t s) w in
  endsWithFlush w w' /\
  flushes (trace w')
  = (flushes (trace w) + if storesFace t (memory w) then 2 else 1)%nat.
Proof.
  intros w'. unfold w', storesFace, endsWithFlush.
  destruct (ruleOf (toLowerCase t)) eqn:Hr.
  - rewrite (handleVoiceCommand_lightOn t s w Hr). cbv zeta.
    cbn [trace memory]. split.
    + eexists [_; _; _; _]. reflexivity.
    + rewrite flushes_app. reflexivity.
  - rewrite (handleVoiceCommand_lightOff t s w Hr). cbv zeta.
    cbn [trace memory]. split.
    + eexists [_; _; _; _]. reflexivity.
    + rewrite flushes_app. reflexivity.
  - destruct (extractName (toLowerCase t)) as [n|] eqn:Hn;
      [destruct (truthy n) eqn:Ht;
       [destruct (lastFaceDescriptor (memory w)) as [v|] eqn:Hv|]|].
    + rewrite (handleVoiceCommand_remember_store t s w n v Hr Hn Ht Hv).
      cbv zeta. cbn [trace memory truthyOpt]. rewrite Ht. split.
      * eexists [_; _; _; _]. reflexivity.
      * rewrite flushes_app. reflexivity.
    + rewrite (handleVoiceCommand_remember_reply t s w
                 (js "Не вижу лицо для запоминания.") Hr).
      * cbv zeta. cbn [trace memory truthyOpt]. rewrite Ht. split.
        -- eexists [_; _]. reflexivity.
        -- rewrite flushes_app. reflexivity.
      * right. rewrite Hn. cbn [truthyOpt].
        split; [exact Ht | split; [exact Hv | reflexivity]].
    + rewrite (handleVoiceCommand_remember_reply t s w
                 (js "Как назвать этого человека?") Hr).
      * cbv zeta. cbn [trace memory truthyOpt]. rewrite Ht. split.
        -- eexists [_; _]. reflexivity.
        -- rewrite flushes_app. reflexivity.
      * left. rewrite Hn. cbn [truthyOpt]. split; [exact Ht | reflexivity].
    + rewrite (handleVoiceCommand_remember_reply t s w
                 (js "Как назвать этого человека?") Hr).
      * cbv zeta. cbn [trace memory truthyOpt andb]. split.
        -- eexists [_; _]. reflexivity.
        -- rewrite flushes_app. reflexivity.
      * left. rewrite Hn. split; reflexivity.
  - rewrite (handleVoiceCommand_fallback t s w Hr). cbv zeta.
    cbn [trace memory]. split.
    + eexists [_; _; _]. reflexivity.
    + rewrite flushes_app. reflexivity.
Qed.

Lemma onTranscriptReceived_final (s : SocketId) (t : jsstring) (w : World) :
  truthy t = true ->
  exec (onTranscriptReceived s true t) w
  = exec saveMemory (exec (handleVoiceCommand t s) (heard s t w)).
Proof.
  intros Ht. unfold onTranscriptReceived. rewrite Ht. cbn [andb].
  rewrite !exec_bind. cbv beta.
  replace (exec (perform (SocketEmitTranscript s t))
             (exec (pushConversation user t)
                (exec (perform (ConsoleLog (js "👂 Heard: " ++ t))) w)))
    with (heard s t w); [reflexivity|].
  unfold heard. destruct w as [[fs cl eh st le lfd llf] clock tk tr].
  run_handler. rewrite <- !app_assoc. reflexivity.
Qed.

Lemma onTranscriptReceived_ignored (s : SocketId) (fin : bool)
      (t : jsstring) (w : World) :
  fin && truthy t = false -> exec (onTranscriptReceived s fin t) w = w.
Proof. intros H. unfold onTranscriptReceived. rewrite H. reflexivity. Qed.

Lemma onTranscriptReceived_flushes (s : SocketId) (t : jsstring) (w : World) :
  truthy t = true ->
  let w' := exec (onTranscriptReceived s true t) w in
  endsWithFlush w w' /\
  flushes (trace w')
  = (flushes (trace w) + if storesFace t (memory w) then 3 else 2)%nat.
Proof.
  intros Ht w'. unfold w'. rewrite onTranscriptReceived_final by exact Ht.
  destruct (handleVoiceCommand_flushes t s (heard s t w)) as [[effs He] Hf].
  cbv zeta in He, Hf.
  set (w1 := exec (handleVoiceCommand t s) (heard s t w)) in *.
  split.
  - apply endsWithFlush_saveMemory
      with (effects := [ConsoleLog (js "👂 Heard: " ++ t);
                        SocketEmitTranscript s t]
                       ++ effs ++ [WriteMemoryFile (memory w1)]).
    rewrite He. unfold heard. cbn [trace]. rewrite <- !app_assoc. reflexivity.
  - unfold exec, saveMemory, bind, getMemory, perform. cbn [snd trace].
    rewrite flushes_app, Hf.
    replace (storesFace t (memory (heard s t w)))
      with (storesFace t (memory w)) by reflexivity.
    unfold heard at 1. cbn [trace]. rewrite flushes_app.
    change (flushes [ConsoleLog (js "👂 Heard: " ++ t);
                     SocketEmitTranscript s t]) with 0%nat.
    change (flushes [WriteMemoryFile (memory w1)]) with 1%nat.
    destruct (storesFace t (memory w)); lia.
Qed.

(** C7. Every branch of the interpreter ends with a write of the memory
    file that holds the memory as the branch leaves it.  The interpreter
    itself writes once, and twice in the branch that stores a face; the
    transcript handler that calls it writes once more after it, so a final,
    non-empty transcript is followed by two writes, three when a face is
    stored. *)
Theorem voice_command_ends_with_flush (t : jsstring) (s : SocketId)
        (w : World) :
  let w' := exec (handleVoiceCommand t s) w in
  endsWithFlush w w' /\
  flushes (trace w')
  = (flushes (trace w) + if storesFace t (memory w) then 2 else 1)%nat /\
  (truthy t = true ->
   let w'' := exec (onTranscriptReceived s true t) w in
   endsWithFlush w w'' /\
   flushes (trace w'')
   = (flushes (trace w) + if storesFace t (memory w) then 3 else 2)%nat).
Proof.
  intros w'.
  destruct (handleVoiceCommand_flushes t s w) as [H1 H2].
  split; [exact H1 | split; [exact H2 |]].
  intros Ht. apply onTranscriptReceived_flushes. exact Ht.
Qed.


End WithHost.
End FlushClaims.

Module FlushExamples.
Import Commands CommandExamples FlushClaims TrackerExample.

(** The transcript "привет", final, on socket 1 from the initial world. *)
Lemma voice_command_ends_with_flush_witness :
  flushes (trace (exec (onTranscriptReceived (host := basicHost) 1%nat true
                          privet) (initialWorld Z.of_nat)))
  = 2%nat.
Proof.
  apply (voice_command_ends_with_flush (host := basicHost) privet 1%nat
           (initialWorld Z.of_nat)).
  reflexivity.
Defined.

(** Handling one transcript writes the memory file more than once: twice
    for "привет", and the interpreter alone writes twice when it stores a
    face. *)
Lemma one_transcript_is_flushed_more_than_once :
  flushes (trace (exec (onTranscriptReceived (host := basicHost) 1%nat true
                          privet) (initialWorld Z.of_nat)))
  = 2%nat /\
  flushes (trace (exec (handleVoiceCommand (host := basicHost)
                          (js "запомни лицо как Анна") 1%nat)
                       (worldSeeing [zero])))
  = 2%nat.
Proof.
  split.
  - vm_compute. reflexivity.
  - vm_compute. reflexivity.
Qed.


End FlushExamples.

(* ================================================================== *)
(** * The admin panel and the smart-home handler *)
(* ================================================================== *)

Module AccessClaims.
Import Commands Flush.

Section WithHost.
Context {host : Host}.

(** C9. When the credential is not the configured secret, the response is
    the status 401 with the body "Unauthorized", whatever the memory holds:
    two memories give the same response. *)
Theorem unauthorized_response_is_constant
        (env : option jsstring) (token : JsValue) (m m' : Memory) :
  token <> JsString (validToken env) ->
  adminPanel env token m = mkResponse 401 (js "Unauthorized") /\
  adminPanel env token m = adminPanel env token m'.
Proof.
  intros Ht. unfold adminPanel.
  destruct (strictEqString token (validToken env)) eqn:E.
  - apply strictEqString_spec in E. contradiction.
  - split; reflexivity.
Qed.

End WithHost.

(** C10. For the device "light" the handler sets [state.light] to the
    result of [action === 'on'] and leaves every other field, broadcasts
    the new value and writes the memory file; for any other device the
    world is unchanged: no field changes, nothing is broadcast, nothing is
    written. *)
Theorem smart_home_sets_light_only (device action : JsValue) (w : World) :
  let w' := exec (onSmartHome device action) w in
  (device = JsString (js "light") ->
   memory w' = set_light (strictEqString action (js "on")) (memory w) /\
   (light (state (memory w')) = true <-> action = JsString (js "on")) /\
   trace w'
   = trace w
     ++ [ConsoleLog (js "💡 Light state changed via UI: "
                     ++ showBool (light (state (memory w'))));
         IoEmitLightState (light (state (memory w')));
         WriteMemoryFile (memory w')]) /\
  (device <> JsString (js "light") -> w' = w).
Proof.
  intros w'. unfold w'. split.
  - intros ->. rewrite onSmartHome_light. cbv zeta. cbn [memory trace].
    split; [reflexivity | split; [|reflexivity]].
    cbn [set_light state light]. apply strictEqString_spec.
  - apply onSmartHome_other.
Qed.

End AccessClaims.

Module AccessExamples.
Import AccessClaims.

Definition someMemory : Memory :=
  set_faces [mkFace (js "анна") [zero]] initialMemory.

(** A request without a token, the secret being the default one. *)
Lemma unauthorized_response_is_constant_witness :
  adminPanel (host := basicHost) None JsUndefined someMemory
  = mkResponse 401 (js "Unauthorized") /\
  adminPanel (host := basicHost) None JsUndefined someMemory
  = adminPanel (host := basicHost) None JsUndefined initialMemory.
Proof.
  apply (unauthorized_response_is_constant (host := basicHost)
           None JsUndefined someMemory initialMemory).
  discriminate.
Defined.

(** The action "dim" for the light switches it off. *)
Lemma smart_home_sets_light_only_witness :
  memory (exec (onSmartHome (JsString (js "light")) (JsString (js "dim")))
               (initialWorld Z.of_nat))
  = set_light false initialMemory.
Proof.
  apply (smart_home_sets_light_only (JsString (js "light"))
           (JsString (js "dim")) (initialWorld Z.of_nat)).
  reflexivity.
Defined.

End AccessExamples.

(* ================================================================== *)
(** * The socket handshake (lines 62-69) *)
(* ================================================================== *)

(** Truthiness of a value, as [!token] reads it. *)
Definition truthyValue (v : JsValue) : bool :=
  match v with
  | JsUndefined | JsNull => false
  | JsBool b => b
  | JsNumber n => negb (isZero n || isNaN n)
  | JsString s => truthy s
  | JsObject => true
  end.

(** What the middleware passes to [next]. *)
Inductive Handshake :=
| Accepted
| Refused (message : jsstring).

(** [io.use((socket, next) => ...)] with [token] the handshake's query
    token and [env] the value of [process.env.ADMIN_TOKEN]. *)
Definition socketAuth (env : option jsstring) (token : JsValue) : Handshake :=
  if negb (truthyValue token) || negb (strictEqString token (validToken env))
  then Refused (js "Authentication error")
  else Accepted.

Module Access.
Import Commands.

(** The secret is never the empty string: an unset or empty
    [ADMIN_TOKEN] is replaced by the default. *)
Lemma validToken_truthy (env : option jsstring) :
  truthy (validToken env) = true.
Proof.
  unfold validToken. destruct env as [t|]; [|reflexivity].
  destruct (truthy t) eqn:E; [exact E | reflexivity].
Qed.

Section WithHost.
Context {host : Host}.

(** The handshake and the admin panel admit the same credentials: a
    connection is accepted exactly when the admin panel answers 200, and
    that is exactly when the token is the secret as a string; an empty
    [ADMIN_TOKEN] does not make the empty token valid. *)
Theorem handshake_and_panel_admit_the_same_tokens
        (env : option jsstring) (token : JsValue) (m : Memory) :
  (socketAuth env token = Accepted <-> token = JsString (validToken env)) /\
  (status (adminPanel env token m) = 200%nat
   <-> token = JsString (validToken env)) /\
  socketAuth (Some []) (JsString []) = Refused (js "Authentication error").
Proof.
  split; [|split].
  - unfold socketAuth. split.
    + destruct (truthyValue token); cbn [negb orb]; [|discriminate].
      destruct (strictEqString token (validToken env)) eqn:E;
        cbn [negb]; [|discriminate].
      intros _. now apply strictEqString_spec.
    + intros ->. cbn [truthyValue]. rewrite validToken_truthy.
      replace (strictEqString (JsString (validToken env)) (validToken env))
        with true by (symmetry; now apply strictEqString_spec).
      reflexivity.
  - unfold adminPanel.
    destruct (strictEqString token (validToken env)) eqn:E; cbn [negb status].
    + apply strictEqString_spec in E. split; trivial.
    + split; [discriminate|]. intros H.
      apply strictEqString_spec in H. congruence.
  - reflexivity.
Qed.

End WithHost.
End Access.

(* ================================================================== *)
(** * Histories only grow *)
(* ================================================================== *)

(** [m2] holds the three lists of [m1], each possibly with more entries at
    its end. *)
Definition extends (m1 m2 : Memory) : Prop :=
  (exists l, faces m2 = faces m1 ++ l) /\
  (exists l, conversationLog m2 = conversationLog m1 ++ l) /\
  (exists l, emotionHistory m2 = emotionHistory m1 ++ l).

(** [appendOnly m]: running [m] only appends to the three lists. *)
Definition appendOnly {A} (m : M A) : Prop :=
  forall w, extends (memory w) (memory (snd (m w))).

Module Growth.
Import Tracker Frame.

Lemma extends_refl (m : Memory) : extends m m.
Proof. repeat split; exists []; now rewrite app_nil_r. Qed.

Lemma extends_trans (m1 m2 m3 : Memory) :
  extends m1 m2 -> extends m2 m3 -> extends m1 m3.
Proof.
  intros ([f1 Hf1] & [c1 Hc1] & [e1 He1]) ([f2 Hf2] & [c2 Hc2] & [e2 He2]).
  repeat split.
  - exists (f1 ++ f2). now rewrite Hf2, Hf1, app_assoc.
  - exists (c1 ++ c2). now rewrite Hc2, Hc1, app_assoc.
  - exists (e1 ++ e2). now rewrite He2, He1, app_assoc.
Qed.

Lemma appendOnly_ret {A} (a : A) : appendOnly (ret a).
Proof. intros w. apply extends_refl. Qed.

Lemma appendOnly_bind {A B} (m : M A) (k : A -> M B) :
  appendOnly m -> (forall a, appendOnly (k a)) -> appendOnly (bind m k).
Proof.
  intros Hm Hk w. unfold bind. specialize (Hm w).
  destruct (m w) as [a w']. cbn [snd] in Hm.
  eapply extends_trans; [exact Hm | apply Hk].
Qed.

Lemma appendOnly_perform (e : Effect) : appendOnly (perform e).
Proof. intros w. apply extends_refl. Qed.

Lemma appendOnly_dateNow : appendOnly dateNow.
Proof. intros w. apply extends_refl. Qed.

Lemma appendOnly_getMemory : appendOnly getMemory.
Proof. intros w. apply extends_refl. Qed.

Lemma appendOnly_saveMemory : appendOnly saveMemory.
Proof. intros w. apply extends_refl. Qed.

Lemma appendOnly_modifyMemory (g : Memory -> Memory) :
  (forall m, extends m (g m)) -> appendOnly (modifyMemory g).
Proof. intros H w. apply H. Qed.

Ltac extends_field :=
  intros; repeat split;
  first [ exists []; cbn; now rewrite app_nil_r | eexists; reflexivity ].

Lemma appendOnly_pushConversation a t : appendOnly (pushConversation a t).
Proof.
  unfold pushConversation.
  apply appendOnly_bind; [apply appendOnly_dateNow | intros time].
  apply appendOnly_modifyMemory. extends_field.
Qed.

Lemma appendOnly_speakText t s : appendOnly (speakText t s).
Proof.
  unfold speakText.
  do 2 (apply appendOnly_bind; [apply appendOnly_perform | intros _]).
  apply appendOnly_pushConversation.
Qed.

Ltac grow_step :=
  match goal with
  | |- appendOnly (if ?c then _ else _) => destruct c
  | |- appendOnly (match ?x with _ => _ end) => destruct x
  | |- appendOnly (bind _ _) => apply appendOnly_bind; [|intros ?]
  | |- appendOnly (ret _) => apply appendOnly_ret
  | |- appendOnly (perform _) => apply appendOnly_perform
  | |- appendOnly dateNow => apply appendOnly_dateNow
  | |- appendOnly getMemory => apply appendOnly_getMemory
  | |- appendOnly saveMemory => apply appendOnly_saveMemory
  | |- appendOnly (pushConversation _ _) => apply appendOnly_pushConversation
  | |- appendOnly (speakText _ _) => apply appendOnly_speakText
  | |- appendOnly (modifyMemory _) =>
    apply appendOnly_modifyMemory; extends_field
  end.

Ltac grow := cbv zeta; repeat grow_step.

Lemma appendOnly_observeEmotion o : appendOnly (observeEmotion o).
Proof. unfold observeEmotion. grow. Qed.

Lemma appendOnly_onFaceData s d e : appendOnly (onFaceData s d e).
Proof. unfold onFaceData. grow. apply appendOnly_observeEmotion. Qed.

Lemma appendOnly_onSmartHome d a : appendOnly (onSmartHome d a).
Proof. unfold onSmartHome. grow. Qed.

Lemma appendOnly_onLidarData s fr : appendOnly (onLidarData s fr).
Proof. unfold onLidarData. grow. Qed.

Section WithHost.
Context {host : Host}.

Lemma appendOnly_handleVoiceCommand t s : appendOnly (handleVoiceCommand t s).
Proof. unfold handleVoiceCommand. grow. Qed.

Lemma appendOnly_onTranscriptReceived s fin t :
  appendOnly (onTranscriptReceived s fin t).
Proof.
  unfold onTranscriptReceived. grow. apply appendOnly_handleVoiceCommand.
Qed.

Lemma appendOnly_handle ev : appendOnly (handle ev).
Proof.
  destruct ev; unfold handle.
  - apply appendOnly_onFaceData.
  - apply appendOnly_onSmartHome.
  - apply appendOnly_onLidarData.
  - apply appendOnly_onTranscriptReceived.
Qed.

(** Whatever events arrive and whatever the memory held before, the known
    faces, the conversation log and the emotion history keep every entry
    they had, in place: the handlers only append to them. *)
Theorem histories_only_grow (evs : list Event) (w : World) :
  extends (memory w) (memory (run evs w)).
Proof.
  revert w; induction evs as [|ev evs IH]; intros w.
  - apply extends_refl.
  - rewrite TrackerClaims.run_cons.
    eapply extends_trans; [apply (appendOnly_handle ev w) | apply IH].
Qed.

End WithHost.
End Growth.

(* ================================================================== *)
(** * More on the face-data handler *)
(* ================================================================== *)

(** [emotion === 'happy'] for the optional field. *)
Definition isHappy (e : option jsstring) : bool :=
  match e with
  | Some l => JsString.eqb l (js "happy")
  | None => false
  end.

(** Authors and texts of a log, without the times. *)
Definition said (log : list ConversationEntry) : list (Author * jsstring) :=
  map (fun c => (from c, text c)) log.

(** The descriptor of the newest face-data event that carried one. *)
Definition latestDescriptor (evs : list Event)
           (before : option Descriptor) : option Descriptor :=
  fold_left (fun acc ev =>
               match ev with
               | FaceData _ (Some d) _ => Some d
               | _ => acc
               end) evs before.

Definition hasNoComponents (p : FaceRecord) : bool :=
  match descriptor p with [] => true | _ :: _ => false end.

Module FaceDataFacts.
Import NumFacts Matcher MatcherClaims Tracker Frame Commands.

(** The whole handler on one page: what it sends, what it logs and what
    it keeps as the last descriptor. *)
Lemma onFaceData_outcome s d e (w : World) :
  let w' := exec (onFaceData s d e) w in
  let g := greeting (recognize d (faces (memory w))) in
  trace w'
  = trace w ++ (if isHappy e
                then [ConsoleLog (js "💬 Assistant says: " ++ g);
                      SocketEmitTts s g]
                else []) /\
  said (conversationLog (memory w'))
  = said (conversationLog (memory w))
    ++ (if isHappy e then [(assistant, g)] else []) /\
  lastFaceDescriptor (memory w')
  = match d with Some x => Some x | None => lastFaceDescriptor (memory w) end /\
  faces (memory w') = faces (memory w) /\
  state (memory w') = state (memory w).
Proof.
  destruct w as [[fs cl eh st le lfd llf] clock tk tr].
  unfold onFaceData, observeEmotion, isHappy, said.
  destruct e as [e|]; [destruct (truthy e);
                       [destruct (differsFrom e le) eqn:Hd|]|];
    destruct d as [d|]; run_handler;
    try rewrite Hd; run_handler;
    try (destruct (JsString.eqb e (js "happy")); run_handler);
    rewrite ?map_app, ?app_nil_r, <- ?app_assoc;
    (split; [reflexivity|]); (split; [reflexivity|]);
    (split; [reflexivity|]); split; reflexivity.
Qed.

Lemma recognize_exact (q : Descriptor) (l1 l2 : list FaceRecord)
      (p : FaceRecord) :
  descriptor p = q ->
  Forall (fun x => isFinite x = true) (Float32Array_from q) ->
  Forall (fun r => isZero (distance (Float32Array_from q) r) = false) l1 ->
  recognize (Some q) (l1 ++ p :: l2) = Some (name p).
Proof.
  intros Hq Hfin Hnz. rewrite recognize_split.
  set (desc := Float32Array_from q) in *.
  assert (Hd : distance desc p = zero) by (apply distance_same; trivial).
  assert (Hb : ltb zero (bestDistance (scan desc l1)) = true).
  { pose proof (scan_summary desc l1) as S1. unfold Summary in S1.
    destruct (recognizedName (scan desc l1)) as [n|].
    - destruct S1 as (k1 & r & k2 & -> & _ & Hb & Hr & _).
      rewrite Hb. apply positive_of_nonzero with threshold; trivial.
      + apply distance_not_negative.
      + apply Forall_app in Hnz. destruct Hnz as [_ Hnz].
        inversion Hnz; subst. assumption.
    - destruct S1 as [-> _]. reflexivity. }
  unfold consider at 2. rewrite Hd, Hb. cbn [andb].
  replace (ltb zero threshold) with true by reflexivity.
  rewrite zero_stays; reflexivity.
Qed.

(** Records that are not below the threshold have no part in the result:
    without them the same name is recognised. *)
Theorem recognition_ignores_distant_records
        (q : Descriptor) (known : list FaceRecord) :
  recognize (Some q) known
  = recognize (Some q)
      (filter (fun p => ltb (distance (Float32Array_from q) p) threshold)
              known).
Proof.
  rewrite !recognize_scan. unfold scan.
  generalize {| bestDistance := Infinity; recognizedName := None |}.
  induction known as [|p known IH]; intros b; [reflexivity|].
  cbn [filter fold_left].
  destruct (ltb (distance (Float32Array_from q) p) threshold) eqn:E.
  - cbn [fold_left]. apply IH.
  - unfold consider at 2. rewrite E. cbn [andb]. apply IH.
Qed.

(** An empty query descriptor is still a descriptor: it recognises the
    first record whose own descriptor is empty, and no other record. *)
Theorem empty_query_names_first_empty_record (known : list FaceRecord) :
  recognize (Some []) known = option_map name (find hasNoComponents known).
Proof.
  rewrite recognize_scan. unfold scan. cbn [Float32Array_from map].
  induction known as [|p known IH]; [reflexivity|].
  cbn [fold_left find]. unfold hasNoComponents at 1.
  destruct (descriptor p) as [|x xs] eqn:Hp.
  - assert (distance [] p = zero) as Hd
        by (unfold distance; rewrite Hp; reflexivity).
    unfold consider at 2. rewrite Hd.
    replace (ltb zero threshold) with true by reflexivity.
    cbn [andb bestDistance ltb Infinity zero SFltb SFcompare].
    rewrite zero_stays by reflexivity. reflexivity.
  - rewrite consider_nan; [exact IH|].
    apply distance_longer. rewrite Hp. cbn [List.length]. lia.
Qed.

Section WithHost.
Context {host : Host}.

(** [memory.lastFaceDescriptor] is the descriptor of the newest face-data
    event that carried one; no other event touches it. *)
Theorem last_descriptor_is_the_newest (evs : list Event) (w : World) :
  lastFaceDescriptor (memory (run evs w))
  = latestDescriptor evs (lastFaceDescriptor (memory w)).
Proof.
  revert w; induction evs as [|ev evs IH]; intros w; [reflexivity|].
  rewrite TrackerClaims.run_cons, IH. unfold latestDescriptor.
  cbn [fold_left]. f_equal.
  destruct ev as [s d e|s dev act|s fr|s fin t]; unfold handle.
  - destruct (onFaceData_outcome s d e w) as (_ & _ & H & _).
    cbv zeta in H. rewrite H. destruct d; reflexivity.
  - apply (keeps_exec lastFaceDescriptor). unfold onSmartHome. frame.
  - apply (keeps_exec lastFaceDescriptor). unfold onLidarData. frame.
  - apply (keeps_exec lastFaceDescriptor).
    unfold onTranscriptReceived, handleVoiceCommand. frame.
Qed.


(** Remember, then recognise: once "запомни лицо ..." has stored the last
    descriptor under a name, a happy sample with that descriptor is greeted
    by that name, provided the descriptor is finite as 32-bit floats and no
    face known before is at distance zero from it. *)
Theorem remembered_face_is_greeted_by_name
        (t n : jsstring) (s s' : SocketId) (d : Descriptor) (w : World) :
  ruleOf (toLowerCase t) = RememberFace ->
  extractName (toLowerCase t) = Some n -> truthy n = true ->
  lastFaceDescriptor (memory w) = Some d ->
  Forall (fun x => isFinite x = true) (Float32Array_from d) ->
  Forall (fun r => isZero (distance (Float32Array_from d) r) = false)
         (faces (memory w)) ->
  let w1 := exec (handleVoiceCommand t s) w in
  let w2 := exec (handle (FaceData s' (Some d) (Some (js "happy")))) w1 in
  recognize (Some d) (faces (memory w1)) = Some n /\
  ttsEmitted (trace w2)
  = ttsEmitted (trace w1)
    ++ [js "Привет, " ++ n ++ js "! Рад видеть твою улыбку."].
Proof.
  intros Hr Hn Ht Hd Hfin Hnz w1 w2.
  assert (Hrec : recognize (Some d) (faces (memory w1)) = Some n).
  { unfold w1.
    rewrite (handleVoiceCommand_remember_store t s w n d Hr Hn Ht Hd).
    cbv zeta. cbn [memory faces set_conversationLog set_faces].
    apply (recognize_exact d (faces (memory w)) [] (mkFace n d));
      trivial. }
  split; [exact Hrec|].
  unfold w2, handle.
  destruct (onFaceData_outcome s' (Some d) (Some (js "happy")) w1)
    as (Htr & _).
  cbv zeta in Htr. rewrite Htr, Hrec, ttsEmitted_app.
  unfold isHappy. rewrite JsString.eqb_refl.
  unfold greeting. rewrite Ht. reflexivity.
Qed.

End WithHost.
End FaceDataFacts.

(* ================================================================== *)
(** * The light and its broadcasts *)
(* ================================================================== *)

(** The values sent with [io.emit('light-state', ...)], oldest first. *)
Definition lightBroadcasts (tr : list Effect) : list bool :=
  flat_map (fun e => match e with IoEmitLightState b => [b] | _ => [] end) tr.

(** What the clients were told last is what the server holds; before any
    broadcast the light is off, as in the initial memory. *)
Definition LightInSync (w : World) : Prop :=
  last (lightBroadcasts (trace w)) false = light (state (memory w)).

(** One step either leaves light and broadcasts alone or ends with a
    broadcast of the light it leaves. *)
Definition keepsLightInSync (w w' : World) : Prop :=
  (lightBroadcasts (trace w') = lightBroadcasts (trace w) /\
   light (state (memory w')) = light (state (memory w))) \/
  (exists b, lightBroadcasts (trace w') = lightBroadcasts (trace w) ++ [b] /\
             light (state (memory w')) = b).

Module Light.
Import Tracker Frame Commands Flush FlushClaims FaceDataFacts.

Lemma lightBroadcasts_app (a b : list Effect) :
  lightBroadcasts (a ++ b) = lightBroadcasts a ++ lightBroadcasts b.
Proof. unfold lightBroadcasts. now rewrite flat_map_app. Qed.

Lemma keepsLightInSync_sound (w w' : World) :
  keepsLightInSync w w' -> LightInSync w -> LightInSync w'.
Proof.
  unfold LightInSync. intros [[Hb Hl]|[b [Hb Hl]]] H.
  - now rewrite Hb, Hl.
  - rewrite Hb, Hl. apply last_last.
Qed.

Section WithHost.
Context {host : Host}.

Lemma handleVoiceCommand_light (t : jsstring) (s : SocketId) (w : World) :
  let w' := exec (handleVoiceCommand t s) w in
  keepsLightInSync w w' /\
  light (state (memory w'))
  = match ruleOf (toLowerCase t) with
    | LightOn => true
    | LightOff => false
    | _ => light (state (memory w))
    end.
Proof.
  intros w'. unfold w', keepsLightInSync.
  destruct (ruleOf (toLowerCase t)) eqn:Hr.
  - rewrite (handleVoiceCommand_lightOn t s w Hr). cbv zeta.
    cbn [trace memory]. rewrite lightBroadcasts_app.
    split; [right; exists true; split; reflexivity | reflexivity].
  - rewrite (handleVoiceCommand_lightOff t s w Hr). cbv zeta.
    cbn [trace memory]. rewrite lightBroadcasts_app.
    split; [right; exists false; split; reflexivity | reflexivity].
  - destruct (extractName (toLowerCase t)) as [n|] eqn:Hn;
      [destruct (truthy n) eqn:Ht;
       [destruct (lastFaceDescriptor (memory w)) as [v|] eqn:Hv|]|].
    + rewrite (handleVoiceCommand_remember_store t s w n v Hr Hn Ht Hv).
      cbv zeta. cbn [trace memory]. rewrite lightBroadcasts_app.
      split; [left; split; [apply app_nil_r | reflexivity] | reflexivity].
    + rewrite (handleVoiceCommand_remember_reply t s w
                 (js "Не вижу лицо для запоминания.") Hr).
      * cbv zeta. cbn [trace memory]. rewrite lightBroadcasts_app.
        split; [left; split; [apply app_nil_r | reflexivity] | reflexivity].
      * right. rewrite Hn. cbn [truthyOpt].
        split; [exact Ht | split; [exact Hv | reflexivity]].
    + rewrite (handleVoiceCommand_remember_reply t s w
                 (js "Как назвать этого человека?") Hr).
      * cbv zeta. cbn [trace memory]. rewrite lightBroadcasts_app.
        split; [left; split; [apply app_nil_r | reflexivity] | reflexivity].
      * left. rewrite Hn. cbn [truthyOpt]. split; [exact Ht | reflexivity].
    + rewrite (handleVoiceCommand_remember_reply t s w
                 (js "Как назвать этого человека?") Hr).
      * cbv zeta. cbn [trace memory]. rewrite lightBroadcasts_app.
        split; [left; split; [apply app_nil_r | reflexivity] | reflexivity].
      * left. rewrite Hn. split; reflexivity.
  - rewrite (handleVoiceCommand_fallback t s w Hr). cbv zeta.
    cbn [trace memory]. rewrite lightBroadcasts_app.
    split; [left; split; [apply app_nil_r | reflexivity] | reflexivity].
Qed.

(** The rules are tried in order and the first that applies decides: a
    transcript with the switch-on phrase turns the light on whatever else it
    contains, one with the switch-off phrase and without the switch-on
    phrase turns it off, and every other transcript leaves the light. *)
Theorem first_matching_rule_decides_the_light
        (t : jsstring) (s : SocketId) (w : World) :
  let text := toLowerCase t in
  let after := light (state (memory (exec (handleVoiceCommand t s) w))) in
  (includes text (js "включи свет") = true -> after = true) /\
  (includes text (js "включи свет") = false ->
   includes text (js "выключи свет") = true -> after = false) /\
  (includes text (js "включи свет") = false ->
   includes text (js "выключи свет") = false ->
   after = light (state (memory w))).
Proof.
  intros text after.
  destruct (handleVoiceCommand_light t s w) as [_ H]. cbv zeta in H.
  fold after in H. unfold ruleOf in H. fold text in H.
  split; [|split].
  - intros E. rewrite E in H. exact H.
  - intros E1 E2. rewrite E1, E2 in H. exact H.
  - intros E1 E2. rewrite E1, E2 in H.
    destruct (includes text (js "запомни лицо")); exact H.
Qed.

Lemma handle_keepsLightInSync (ev : Event) (w : World) :
  keepsLightInSync w (exec (handle ev) w).
Proof.
  destruct ev as [s d e|s device action|s fr|s fin t]; unfold handle.
  - destruct (onFaceData_outcome s d e w) as (Ht & _ & _ & _ & Hs).
    cbv zeta in Ht, Hs. left. rewrite Ht, Hs, lightBroadcasts_app.
    split; [|reflexivity]. destruct (isHappy e); apply app_nil_r.
  - destruct (strictEqString device (js "light")) eqn:E.
    + apply strictEqString_spec in E. subst device.
      rewrite onSmartHome_light. cbv zeta. right. cbn [trace memory].
      rewrite lightBroadcasts_app.
      eexists. split; reflexivity.
    + rewrite onSmartHome_other; [left; split; reflexivity|].
      intros ->.
      assert (strictEqString (JsString (js "light")) (js "light") = true)
        by (apply strictEqString_spec; reflexivity).
      congruence.
  - left. destruct w as [[fs cl eh st le lfd llf] clock tk tr].
    unfold onLidarData. run_handler. rewrite lightBroadcasts_app.
    split; [apply app_nil_r | reflexivity].
  - destruct (fin && truthy t) eqn:E.
    + apply andb_true_iff in E. destruct E as [-> Ht].
      rewrite onTranscriptReceived_final by exact Ht.
      destruct (handleVoiceCommand_light t s (heard s t w)) as [H _].
      cbv zeta in H.
      set (w1 := exec (handleVoiceCommand t s) (heard s t w)) in *.
      assert (Hh : lightBroadcasts (trace (heard s t w))
                   = lightBroadcasts (trace w)).
      { unfold heard. cbn [trace]. rewrite lightBroadcasts_app.
        apply app_nil_r. }
      assert (Hs : lightBroadcasts (trace (exec saveMemory w1))
                   = lightBroadcasts (trace w1)).
      { unfold exec, saveMemory, bind, getMemory, perform. cbn [snd trace].
        rewrite lightBroadcasts_app. apply app_nil_r. }
      unfold keepsLightInSync in *. rewrite Hs.
      change (memory (exec saveMemory w1)) with (memory w1).
      rewrite Hh in H.
      change (light (state (memory (heard s t w))))
        with (light (state (memory w))) in H.
      exact H.
    + rewrite onTranscriptReceived_ignored by exact E.
      left; split; reflexivity.
Qed.

(** Whatever events arrive, the last value broadcast with [light-state] is
    the value of [state.light]: every change of the light is broadcast and
    nothing else is. *)
Theorem clients_know_the_light (clock : nat -> Z) (evs : list Event) :
  LightInSync (run evs (initialWorld clock)).
Proof.
  assert (G : forall w, LightInSync w -> LightInSync (run evs w)).
  { induction evs as [|ev evs IH]; intros w H; [exact H|].
    rewrite TrackerClaims.run_cons. apply IH.
    eapply keepsLightInSync_sound; [apply handle_keepsLightInSync | exact H]. }
  apply G. reflexivity.
Qed.

End WithHost.
End Light.

(* ================================================================== *)
(** * The names the interpreter stores *)
(* ================================================================== *)

(** A name as the remember-face branch accepts it: not empty, already
    trimmed, on one line. *)
Definition wellFormedName (n : jsstring) : Prop :=
  truthy n = true /\ trim n = n /\
  forallb (fun c => negb (isLineTerminator c)) n = true.

Module Names.
Import Tracker Frame Commands FlushClaims.

Definition startsClean (s : jsstring) : Prop :=
  match s with [] => True | c :: _ => isTrimmed c = false end.

Lemma trimStart_startsClean (s : jsstring) : startsClean (trimStart s).
Proof.
  induction s as [|c s IH]; cbn [trimStart]; [exact I|].
  destruct (isTrimmed c) eqn:E; [exact IH | exact E].
Qed.

Lemma trimStart_id (s : jsstring) : startsClean s -> trimStart s = s.
Proof.
  destruct s as [|c s]; cbn [startsClean trimStart]; [reflexivity|].
  intros ->. reflexivity.
Qed.

Lemma trimStart_suffix (s : jsstring) : exists p, s = p ++ trimStart s.
Proof.
  induction s as [|c s [p IH]]; cbn [trimStart]; [now exists []|].
  destruct (isTrimmed c).
  - exists (c :: p). cbn [app]. now rewrite <- IH.
  - now exists [].
Qed.

Lemma trim_startsClean (s : jsstring) : startsClean (trim s).
Proof.
  unfold trim.
  destruct (trimStart_suffix (rev (trimStart s))) as [p Hp].
  set (b := trimStart (rev (trimStart s))) in *.
  destruct b as [|x b'] eqn:Eb; [exact I|].
  apply (f_equal (@rev N)) in Hp. rewrite rev_involutive, rev_app_distr in Hp.
  pose proof (trimStart_startsClean s) as Hc. rewrite Hp in Hc.
  destruct (rev (x :: b')) as [|y r] eqn:Er.
  - apply (f_equal (@List.length N)) in Er.
    rewrite length_rev in Er. discriminate.
  - exact Hc.
Qed.

(** Trimming twice is trimming once. *)
Lemma trim_idempotent (s : jsstring) : trim (trim s) = trim s.
Proof.
  pose proof (trim_startsClean s) as H1.
  unfold trim at 1. rewrite (trimStart_id _ H1).
  unfold trim. rewrite rev_involutive.
  rewrite (trimStart_id _ (trimStart_startsClean _)). reflexivity.
Qed.

Lemma trimStart_incl (s : jsstring) : incl (trimStart s) s.
Proof.
  destruct (trimStart_suffix s) as [p Hp]. intros x Hx.
  rewrite Hp. apply in_or_app. now right.
Qed.

Lemma trim_incl (s : jsstring) : incl (trim s) s.
Proof.
  unfold trim. intros x Hx. apply in_rev in Hx.
  apply trimStart_incl, in_rev in Hx. now apply trimStart_incl.
Qed.

Lemma matchHere_one_line (s g : jsstring) :
  matchHere s = Some g -> dotPlusToEnd g = true.
Proof.
  unfold matchHere.
  destruct (stripPrefix (js "запомни лицо ") s) as [tail|]; [|discriminate].
  destruct (stripPrefix (js "как ") tail) as [rest|].
  - destruct (dotPlusToEnd rest) eqn:E1.
    + intros [= <-]. exact E1.
    + destruct (dotPlusToEnd tail) eqn:E2; [|discriminate].
      intros [= <-]. exact E2.
  - destruct (dotPlusToEnd tail) eqn:E2; [|discriminate].
    intros [= <-]. exact E2.
Qed.

Lemma matchRemember_one_line (s g : jsstring) :
  matchRemember s = Some g -> dotPlusToEnd g = true.
Proof.
  induction s as [|c s IH]; cbn [matchRemember].
  - destruct (matchHere []) eqn:E; [|discriminate].
    intros [= <-]. now apply matchHere_one_line in E.
  - destruct (matchHere (c :: s)) eqn:E.
    + intros [= <-]. now apply matchHere_one_line in E.
    + exact IH.
Qed.

(** Every name the regular expression and [trim] deliver, if it is not
    empty, is well formed. *)
Lemma extractName_wellFormed (text n : jsstring) :
  extractName text = Some n -> truthy n = true -> wellFormedName n.
Proof.
  unfold extractName.
  destruct (matchRemember text) as [g|] eqn:E; [|discriminate].
  intros [= <-] Ht. apply matchRemember_one_line in E.
  unfold dotPlusToEnd in E. apply andb_true_iff in E. destruct E as [_ E].
  split; [exact Ht | split; [apply trim_idempotent|]].
  apply forallb_forall. intros x Hx.
  rewrite forallb_forall in E. apply E. now apply trim_incl.
Qed.

Section WithHost.
Context {host : Host}.

Lemma handleVoiceCommand_faces (t : jsstring) (s : SocketId) (w : World) :
  let w' := exec (handleVoiceCommand t s) w in
  faces (memory w') = faces (memory w) \/
  exists n v,
    faces (memory w') = faces (memory w) ++ [mkFace n v] /\
    wellFormedName n /\ lastFaceDescriptor (memory w) = Some v.
Proof.
  intros w'. unfold w'.
  destruct (ruleOf (toLowerCase t)) eqn:Hr.
  - rewrite (handleVoiceCommand_lightOn t s w Hr). now left.
  - rewrite (handleVoiceCommand_lightOff t s w Hr). now left.
  - destruct (extractName (toLowerCase t)) as [n|] eqn:Hn;
      [destruct (truthy n) eqn:Ht;
       [destruct (lastFaceDescriptor (memory w)) as [v|] eqn:Hv|]|].
    + rewrite (handleVoiceCommand_remember_store t s w n v Hr Hn Ht Hv).
      right. exists n, v. cbv zeta. cbn [memory].
      split; [reflexivity | split; [|reflexivity]].
      now apply (extractName_wellFormed (toLowerCase t)).
    + rewrite (handleVoiceCommand_remember_reply t s w
                 (js "Не вижу лицо для запоминания.") Hr); [now left|].
      right. rewrite Hn. cbn [truthyOpt].
      split; [exact Ht | split; [exact Hv | reflexivity]].
    + rewrite (handleVoiceCommand_remember_reply t s w
                 (js "Как назвать этого человека?") Hr); [now left|].
      left. rewrite Hn. cbn [truthyOpt]. split; [exact Ht | reflexivity].
    + rewrite (handleVoiceCommand_remember_reply t s w
                 (js "Как назвать этого человека?") Hr); [now left|].
      left. rewrite Hn. split; reflexivity.
  - rewrite (handleVoiceCommand_fallback t s w Hr). now left.
Qed.

Lemma handle_faces (ev : Event) (w : World) :
  let w' := exec (handle ev) w in
  faces (memory w') = faces (memory w) \/
  exists n v, faces (memory w') = faces (memory w) ++ [mkFace n v] /\
              wellFormedName n.
Proof.
  intros w'. unfold w'.
  destruct ev as [s d e|s device action|s fr|s fin t]; unfold handle.
  - left. apply (keeps_exec faces). unfold onFaceData, observeEmotion. frame.
  - left. apply (keeps_exec faces). unfold onSmartHome. frame.
  - left. apply (keeps_exec faces). unfold onLidarData. frame.
  - destruct (fin && truthy t) eqn:E.
    + apply andb_true_iff in E. destruct E as [-> Ht].
      rewrite onTranscriptReceived_final by exact Ht.
      change (faces (memory (exec saveMemory
                (exec (handleVoiceCommand t s) (heard s t w)))))
        with (faces (memory (exec (handleVoiceCommand t s) (heard s t w)))).
      destruct (handleVoiceCommand_faces t s (heard s t w))
        as [H|(n & v & H & Hn & _)]; cbv zeta in H.
      * left. exact H.
      * right. exists n, v. split; [exact H | exact Hn].
    + rewrite onTranscriptReceived_ignored by exact E. now left.
Qed.

(** Starting from the initial memory, every stored face has a name that is
    not empty, carries no leading or trailing white space and no line
    break; a transcript cannot store a blank name. *)
Theorem stored_names_are_well_formed (clock : nat -> Z) (evs : list Event) :
  Forall (fun p => wellFormedName (name p))
         (faces (memory (run evs (initialWorld clock)))).
Proof.
  assert (G : forall w,
             Forall (fun p => wellFormedName (name p)) (faces (memory w)) ->
             Forall (fun p => wellFormedName (name p))
                    (faces (memory (run evs w)))).
  { induction evs as [|ev evs IH]; intros w H; [exact H|].
    rewrite TrackerClaims.run_cons. apply IH.
    destruct (handle_faces ev w) as [E|(n & v & E & Hn)]; cbv zeta in E;
      rewrite E; [exact H|].
    apply Forall_app. split; [exact H|]. constructor; [exact Hn|constructor]. }
  apply G. constructor.
Qed.

End WithHost.
End Names.

(* ================================================================== *)
(** * What the admin panel shows *)
(* ================================================================== *)

Module Panel.
Import Commands Access.

Lemma startsWith_app (x r : jsstring) : startsWith x (x ++ r) = true.
Proof.
  induction x as [|c x IH]; [reflexivity|].
  cbn [app startsWith]. now rewrite N.eqb_refl, IH.
Qed.

Lemma startsWith_longer (x s r : jsstring) :
  startsWith x s = true -> startsWith x (s ++ r) = true.
Proof.
  revert s; induction x as [|c x IH]; intros s; [reflexivity|].
  destruct s as [|d s]; cbn [app startsWith]; [discriminate|].
  intros H. apply andb_true_iff in H. destruct H as [H1 H2].
  now rewrite H1, IH.
Qed.

Lemma includes_here (x s : jsstring) :
  startsWith x s = true -> includes s x = true.
Proof. intros H. destruct s; cbn [includes]; now rewrite H. Qed.

Lemma includes_after (p s x : jsstring) :
  includes s x = true -> includes (p ++ s) x = true.
Proof.
  intros H. induction p as [|c p IH]; [exact H|].
  cbn [app includes]. rewrite IH. apply orb_true_r.
Qed.

Lemma includes_before (s r x : jsstring) :
  includes s x = true -> includes (s ++ r) x = true.
Proof.
  induction s as [|c s IH]; cbn [includes app].
  - rewrite orb_false_r. intros H.
    apply includes_here. now apply (startsWith_longer x [] r).
  - intros H. apply orb_true_iff in H. destruct H as [H|H].
    + apply (startsWith_longer x (c :: s) r) in H. cbn [app] in H.
      now rewrite H.
    + rewrite (IH H). apply orb_true_r.
Qed.

(** A [forEach] that appends one piece per element keeps what is there and
    adds the piece of every element. *)
Lemma forEach_keeps {A} (piece : A -> jsstring) (l : list A)
      (html x : jsstring) :
  includes html x = true ->
  includes (fold_left (fun html a => html ++ piece a) l html) x = true.
Proof.
  revert html; induction l as [|a l IH]; intros html H; [exact H|].
  cbn [fold_left]. apply IH. now apply includes_before.
Qed.

Lemma forEach_adds {A} (piece : A -> jsstring) (l : list A)
      (html : jsstring) (a : A) :
  In a l ->
  includes (fold_left (fun html a => html ++ piece a) l html) (piece a)
  = true.
Proof.
  revert html; induction l as [|b l IH]; intros html Ha; [destruct Ha|].
  cbn [fold_left]. destruct Ha as [->|Ha].
  - apply forEach_keeps. apply includes_after.
    apply includes_here. rewrite <- (app_nil_r (piece a)) at 2.
    apply startsWith_app.
  - now apply IH.
Qed.

Section WithHost.
Context {host : Host}.

(** With the secret as token the panel answers 200 and its page holds, for
    every known face, the name between list tags, and for every log entry
    its author and text, each exactly as stored: nothing is escaped. *)
Theorem panel_shows_names_and_log_verbatim
        (env : option jsstring) (m : Memory) :
  let r := adminPanel env (JsString (validToken env)) m in
  status r = 200%nat /\
  (forall p, In p (faces m) ->
     includes (body r) (js "<li>" ++ name p ++ js "</li>") = true) /\
  (forall c, In c (conversationLog m) ->
     includes (body r)
              (js "[" ++ toLocaleTimeString (c_time c) ++ js "] "
                  ++ showAuthor (from c) ++ js ": " ++ text c ++ newline)
     = true).
Proof.
  intros r. unfold r, adminPanel.
  replace (strictEqString (JsString (validToken env)) (validToken env))
    with true by (symmetry; now apply strictEqString_spec).
  cbn [negb status body]. split; [reflexivity|]. unfold renderAdmin.
  cbv zeta. split.
  - intros p Hp.
    apply includes_before.
    apply (forEach_keeps
             (fun entry =>
                js "[" ++ toLocaleTimeString (c_time entry) ++ js "] "
                   ++ showAuthor (from entry) ++ js ": " ++ text entry
                   ++ newline)).
    do 2 apply includes_before.
    apply (forEach_keeps
             (fun e =>
                js "[" ++ toLocaleTimeString (e_time e) ++ js "] "
                   ++ emotion e ++ newline)).
    do 4 apply includes_before.
    now apply (forEach_adds
                 (fun person => js "<li>" ++ name person ++ js "</li>")).
  - intros c Hc. apply includes_before.
    now apply (forEach_adds
                 (fun entry =>
                    js "[" ++ toLocaleTimeString (c_time entry) ++ js "] "
                       ++ showAuthor (from entry) ++ js ": " ++ text entry
                       ++ newline)).
Qed.

End WithHost.
End Panel.

(* ================================================================== *)
(** * The conversation log is in time order *)
(* ================================================================== *)

(** Times along the log never go back, and nothing in it is later than the
    next reading of the clock. *)
Definition LogInOrder (w : World) : Prop :=
  (forall i x y,
      nth_error (conversationLog (memory w)) i = Some x ->
      nth_error (conversationLog (memory w)) (S i) = Some y ->
      c_time x <= c_time y) /\
  Forall (fun c => c_time c <= now w (ticks w)) (conversationLog (memory w)).

(** [ordered m]: under a monotone clock [m] keeps the log in time order. *)
Definition ordered {A} (m : M A) : Prop :=
  forall w, monotone (now w) -> LogInOrder w -> LogInOrder (snd (m w)).

Module LogOrder.
Import Tracker Frame.

Lemma LogInOrder_later (w w' : World) :
  monotone (now w) ->
  conversationLog (memory w') = conversationLog (memory w) ->
  now w' = now w -> (ticks w <= ticks w')%nat ->
  LogInOrder w -> LogInOrder w'.
Proof.
  intros Hmono Hl Hn Ht [H1 H2]. unfold LogInOrder.
  rewrite Hl, Hn. split; [exact H1|].
  eapply Forall_impl; [|exact H2]. cbv beta. intros c Hc.
  specialize (Hmono _ _ Ht). lia.
Qed.

Lemma ordered_ret {A} (a : A) : ordered (ret a).
Proof. intros w _ H. exact H. Qed.

Lemma ordered_bind {A B} (m : M A) (k : A -> M B) :
  steady m -> ordered m -> (forall a, ordered (k a)) -> ordered (bind m k).
Proof.
  intros Hs Hm Hk w Hmono H. unfold bind.
  specialize (Hs w). specialize (Hm w Hmono H).
  destruct (m w) as [a w']. cbn [snd] in *.
  apply Hk; [|exact Hm]. destruct Hs as [-> _]. exact Hmono.
Qed.

Lemma ordered_quietly {A} (m : M A) :
  steady m -> keeps conversationLog m -> ordered m.
Proof.
  intros Hs Hk w Hmono H. destruct (Hs w) as [Hn Ht].
  eapply LogInOrder_later; eauto.
Qed.

Lemma ordered_pushConversation a t : ordered (pushConversation a t).
Proof.
  intros w Hmono [H1 H2].
  destruct w as [[fs cl eh st le lfd llf] clock tk tr].
  unfold pushConversation. run_handler.
  unfold LogInOrder. cbn [memory conversationLog now ticks] in *.
  split.
  - intros i x y Hx Hy.
    assert (S i < List.length (cl ++ [mkEntry (clock tk) a t]))%nat as Hi
        by (apply nth_error_Some; congruence).
    rewrite length_app, Nat.add_1_r in Hi.
    rewrite nth_error_app1 in Hx by lia.
    destruct (Nat.eq_dec (S i) (List.length cl)) as [E|E].
    + rewrite nth_error_app2, <- E, Nat.sub_diag in Hy by lia.
      injection Hy as <-. cbn [c_time].
      rewrite Forall_forall in H2. apply H2.
      eapply nth_error_In; eauto.
    + rewrite nth_error_app1 in Hy by lia. eauto.
  - apply Forall_app. split.
    + eapply Forall_impl; [|exact H2]. cbv beta. intros c Hc.
      specialize (Hmono tk (S tk)). lia.
    + constructor; [|constructor]. cbn [c_time]. apply Hmono. lia.
Qed.

Lemma ordered_speakText t s : ordered (speakText t s).
Proof.
  unfold speakText.
  apply ordered_bind; [apply steady_perform | | intros _].
  { apply ordered_quietly; [apply steady_perform | apply keeps_perform]. }
  apply ordered_bind; [apply steady_perform | | intros _].
  { apply ordered_quietly; [apply steady_perform | apply keeps_perform]. }
  apply ordered_pushConversation.
Qed.

Ltac order_step :=
  match goal with
  | |- ordered (if ?c then _ else _) => destruct c
  | |- ordered (match ?x with _ => _ end) => destruct x
  | |- ordered (bind _ _) => apply ordered_bind; [frame | |intros ?]
  | |- ordered (ret _) => apply ordered_ret
  | |- ordered (pushConversation _ _) => apply ordered_pushConversation
  | |- ordered (speakText _ _) => apply ordered_speakText
  | |- ordered _ => apply ordered_quietly; [frame | frame]
  end.

Ltac order := cbv zeta; repeat order_step.

Lemma ordered_observeEmotion o : ordered (observeEmotion o).
Proof.
  apply ordered_quietly; [apply steady_observeEmotion|].
  unfold observeEmotion. frame.
Qed.

Lemma ordered_onFaceData s d e : ordered (onFaceData s d e).
Proof.
  unfold onFaceData.
  apply ordered_bind;
    [apply steady_observeEmotion | apply ordered_observeEmotion | intros _].
  order.
Qed.

Section WithHost.
Context {host : Host}.

Lemma ordered_handleVoiceCommand t s : ordered (handleVoiceCommand t s).
Proof. unfold handleVoiceCommand. order. Qed.

Lemma ordered_onTranscriptReceived s fin t :
  ordered (onTranscriptReceived s fin t).
Proof.
  unfold onTranscriptReceived.
  destruct (fin && truthy t); [|apply ordered_ret].
  apply ordered_bind; [frame | order | intros _].
  apply ordered_bind; [frame | order | intros _].
  apply ordered_bind; [frame | order | intros _].
  apply ordered_bind;
    [apply steady_handleVoiceCommand | apply ordered_handleVoiceCommand
    | intros _].
  order.
Qed.

Lemma ordered_handle ev : ordered (handle ev).
Proof.
  destruct ev as [s d e|s device action|s fr|s fin t]; unfold handle.
  - apply ordered_onFaceData.
  - unfold onSmartHome. order.
  - unfold onLidarData. order.
  - apply ordered_onTranscriptReceived.
Qed.

(** From the initial memory and under a clock that never goes back, the
    timestamps of the conversation log never decrease, whatever events
    arrive: insertion order is chronological order. *)
Theorem conversation_log_is_chronological
        (clock : nat -> Z) (evs : list Event) :
  monotone clock ->
  forall i x y,
    let log := conversationLog (memory (run evs (initialWorld clock))) in
    nth_error log i = Some x -> nth_error log (S i) = Some y ->
    c_time x <= c_time y.
Proof.
  intros Hmono.
  assert (G : forall w, monotone (now w) -> LogInOrder w ->
                        LogInOrder (run evs w)).
  { induction evs as [|ev evs IH]; intros w Hm H; [exact H|].
    rewrite TrackerClaims.run_cons. apply IH.
    - destruct (steady_handle ev w) as [Hn _]. unfold exec. now rewrite Hn.
    - now apply ordered_handle. }
  assert (H0 : LogInOrder (initialWorld clock)).
  { split; [|constructor]. intros [|i] x y H; discriminate. }
  destruct (G (initialWorld clock) Hmono H0) as [H _]. exact H.
Qed.

End WithHost.
End LogOrder.

Module MoreExamples.
Import Commands CommandClaims CommandExamples AccessExamples TrackerExample.

Lemma monotone_of_nat : monotone Z.of_nat.
Proof. intros i j H. lia. Qed.


(** "запомни лицо как Анна" while the descriptor [0] was seen last, then a
    happy sample with that descriptor. *)
Lemma remembered_face_is_greeted_by_name_witness :
  recognize (Some [zero])
    (faces (memory (exec (handleVoiceCommand (host := basicHost)
                            (js "запомни лицо как Анна") 1%nat)
                         (worldSeeing [zero]))))
  = Some (js "анна").
Proof.
  apply (FaceDataFacts.remembered_face_is_greeted_by_name
           (host := basicHost) (js "запомни лицо как Анна") (js "анна")
           1%nat 1%nat [zero] (worldSeeing [zero])).
  - vm_compute. reflexivity.
  - vm_compute. reflexivity.
  - reflexivity.
  - reflexivity.
  - repeat constructor.
  - constructor.
Defined.

(** A transcript that asks for both: the light goes on. *)
Lemma first_matching_rule_decides_the_light_witness :
  light (state (memory
    (exec (handleVoiceCommand (host := basicHost)
             (js "выключи свет, потом включи свет") 1%nat)
          (initialWorld Z.of_nat))))
  = true.
Proof.
  apply (Light.first_matching_rule_decides_the_light (host := basicHost)
           (js "выключи свет, потом включи свет") 1%nat
           (initialWorld Z.of_nat)).
  vm_compute. reflexivity.
Defined.

(** The page for the memory of one face named "анна". *)
Lemma panel_shows_names_and_log_verbatim_witness :
  includes
    (body (adminPanel (host := basicHost) None
             (JsString (validToken None)) someMemory))
    (js "<li>" ++ js "анна" ++ js "</li>")
  = true.
Proof.
  apply (Panel.panel_shows_names_and_log_verbatim (host := basicHost)
           None someMemory) with (p := mkFace (js "анна") [zero]).
  left. reflexivity.
Defined.

(** The log after the final transcript "привет": the user entry at time 0
    and the reply at time 1. *)
Lemma conversation_log_is_chronological_witness :
  c_time (mkEntry 0 user privet)
  <= c_time (mkEntry 1 assistant (js "Извините, я не понял команду.")).
Proof.
  apply (LogOrder.conversation_log_is_chronological (host := basicHost)
           Z.of_nat [TranscriptReceived 1%nat true privet]
           monotone_of_nat 0%nat).
  - vm_compute. reflexivity.
  - vm_compute. reflexivity.
Defined.

End MoreExamples.

Module LightExamples.

(** The command "включи свет" leaves two assistant entries in the log, the
    reply that [speakText] logs and the confirmation, not one entry. *)
Lemma light_command_logs_reply_and_confirmation :
  let w' := exec (handleVoiceCommand (host := basicHost) (js "включи свет")
                    1%nat) (initialWorld Z.of_nat) in
  said (conversationLog (memory w'))
  = [(assistant, js "Хорошо, включаю свет.");
     (assistant, js "Свет включен.")] /\
  List.length (conversationLog (memory w')) <> 1%nat.
Proof.
  split.
  - vm_compute. reflexivity.
  - vm_compute. discriminate.
Qed.

End LightExamples.
